(** * caddy2-radius-auth: the authentication decision engine

    A shallow embedding of [radius.go] (the concurrent RADIUS fan-out and its
    resolution policy) and of [caddyfile.go] (Caddyfile parsing, [Provision],
    [isValidServerAddr], [Authenticate], [promptForCredentials]).

    Conventions.
    - A Go [string] is a Rocq [string]; [a +:+ b] is concatenation.
    - A Go [error] value that may be [nil] is an [option]; [None] is [nil].
    - Errors created by this package are kept symbolic ([error]): the
      constructor records which call built the value and with which format
      string.  Errors handed back by a dependency are known only through
      their [Error()] text, a [string].
    - [time.Duration] and [UnixNano] instants are [Z] nanoseconds.
    - The functions of layeh.com/radius and of Go's [time] and [net] that
      the package calls are interfaces: type classes whose members are
      those functions.  The go-cache object and Caddy's token dispenser
      carry state through the calls of the package; they are written out,
      after the library sources.
    - Everything a call reads from outside (the network, the order in which
      the channel hands results over, the iteration order of a Go map, the
      clock) is an explicit argument, and what it does besides returning
      (the exchanges made, the cache stores, the writes to the response) is
      part of its result. *)

From Stdlib Require Import ZArith Ascii String List Lia.
From stdpp Require Import base option gmap strings list fin_maps pretty.

Local Open Scope string_scope.
Local Open Scope Z_scope.

(** ** Values shared by both files *)

Definition Duration := Z.

(** [radius.Code] is [type Code int]; the three codes the package names. *)
Definition Code := Z.
Definition CodeAccessRequest : Code := 1.
Definition CodeAccessAccept : Code := 2.
Definition CodeAccessReject : Code := 3.

(** Error values built by this package. *)
Inductive error : Type :=
| errors_New (text : string)
| fmt_Errorf (format : string) (args : list string)
| h_Err (msg : string)
| h_Errf (format : string) (args : list string).

(** [layeh.com/radius] and [rfc2865], as far as [checkRadiusConcurrent] uses
    them.  The two setters mutate the packet and return an error: here they
    return the packet after the call together with that error. *)
Class RadiusLib := {
  Packet : Type;
  radius_New : Code -> string -> Packet;
  UserName_SetString : Packet -> string -> Packet * option string;
  UserPassword_SetString : Packet -> string -> Packet * option string;
  Code_String : Code -> string
}.

(** Go's [time.ParseDuration].  Every failing return of the library is
    [return 0, err]; the law records it. *)
Class GoTime := {
  ParseDuration : string -> Duration * option string;
  ParseDuration_failure :
    forall s d e, ParseDuration s = (d, Some e) -> d = 0
}.

(** Go's [net.SplitHostPort] and [net.ParseIP] ([None] is a nil IP). *)
Class GoNet := {
  IP : Type;
  SplitHostPort : string -> string * string * option string;
  ParseIP : string -> option IP
}.

(** ** strings.Contains *)

Fixpoint HasPrefix (s prefix : string) : bool :=
  match prefix, s with
  | EmptyString, _ => true
  | String c p', String d s' => if Ascii.eqb c d then HasPrefix s' p' else false
  | String _ _, EmptyString => false
  end.

Fixpoint Contains (s substr : string) : bool :=
  if HasPrefix s substr then true
  else match s with
       | EmptyString => false
       | String _ s' => Contains s' substr
       end.

(** ** github.com/patrickmn/go-cache

    The part of the cache the package uses, with the clock reading of each
    operation (a [UnixNano] value, an [int64]) as an argument.  The stored
    objects are always [bool]s. *)

Definition int64 (z : Z) : Prop := - 2 ^ 63 <= z < 2 ^ 63.

Record Item := mkItem {
  Object : bool;
  Expiration : Z
}.

Record Cache := mkCache {
  defaultExpiration : Duration;
  items : gmap string Item
}.

Definition DefaultExpiration : Duration := 0.

Definition cache_New (de cleanupInterval : Duration) : Cache :=
  mkCache (if de =? 0 then -1 else de) ∅.

(** [Item.Expired], inlined in [Get]: an item with a positive expiration is
    gone once the clock is strictly past it. *)
Definition Expired (now : Z) (item : Item) : bool :=
  (0 <? Expiration item) && (Expiration item <? now).

Definition cache_Get (c : Cache) (now : Z) (k : string) : option bool :=
  match items c !! k with
  | None => None
  | Some item => if Expired now item then None else Some (Object item)
  end.

(** [time.Now().Add(d).UnixNano()]: an [int64], so the sum is taken modulo
    2^64 into the signed range. *)
Definition wrap64 (z : Z) : Z := (z + 2 ^ 63) mod 2 ^ 64 - 2 ^ 63.

Definition cache_Set (c : Cache) (now : Z) (k : string) (x : bool)
    (d : Duration) : Cache :=
  let d := if d =? DefaultExpiration then defaultExpiration c else d in
  let e := if 0 <? d then wrap64 (now + d) else 0 in
  mkCache (defaultExpiration c) (<[k := mkItem x e]> (items c)).

Definition cache_SetDefault (c : Cache) (now : Z) (k : string) (x : bool) : Cache :=
  cache_Set c now k x DefaultExpiration.

(** The janitor's periodic [DeleteExpired]. *)
Definition cache_DeleteExpired (c : Cache) (now : Z) : Cache :=
  mkCache (defaultExpiration c)
          (filter (fun kv => Expired now (snd kv) = false) (items c)).

(** ** The module struct

    The configuration struct of caddyfile.go.  [cache] is a pointer: [None]
    is [nil], [Some c] points to a cache object whose current state is [c].
    The object outlives each call, so a call that stores into it returns its
    new state, and the next call through the same pointer starts from that
    state.  The [logger] field plays no part in any result and is left out. *)
Record HTTPRadiusAuth := mkHTTPRadiusAuth {
  Servers : list string;
  Secret : string;
  Realm : string;
  Timeout : string;
  CacheTTL : string;
  cache : option Cache
}.

(** ** radius.go *)

(** The local [type result struct]. *)
Record result := mkResult {
  code : Code;
  err : option string;
  server : string
}.

(** The value type of the [serverResults] map. *)
Record entry := mkEntry {
  e_code : Code;
  e_err : option string
}.

(** What one [radius.Exchange] call yields, a response code or an error,
    given the deadline, the packet, the position of the server in
    [r.Servers] and its address.  An address configured twice is contacted
    twice and may answer differently each time. *)
Definition Network `{RadiusLib} :=
  Duration -> Packet -> nat -> string -> Code + string.

(** The buffered channel [ch]: every result sent is received exactly once,
    in an order the runtime picks. *)
Record Chan := mkChan {
  deliver : list result -> list result;
  deliver_perm : forall l, deliver l ≡ₚ l
}.

(** [for server, result := range serverResults]: Go iterates a map in an
    order of its own choosing. *)
Record MapIter := mkMapIter {
  rangeOrder : list (string * entry) -> list (string * entry);
  rangeOrder_perm : forall l, rangeOrder l ≡ₚ l
}.

(** State of the collector loop. *)
Record Collected := mkCollected {
  hasAccessAccept : bool;
  hasReject : bool;
  serverResults : gmap string entry
}.

(** What a call did besides returning: the [radius.Exchange] calls it made
    (deadline and address, in launch order) and the results its goroutines
    sent on the channel. *)
Record Trace := mkTrace {
  exchanges : list (Duration * string);
  outcomes : list result
}.

Section Radius.
Context `{RL : RadiusLib} `{GT : GoTime}.

(** Lines 23-31: the Access-Request packet, or the wrapped error. *)
Definition buildRequest (secret username password : string) : Packet + error :=
  let packet := radius_New CodeAccessRequest secret in
  match UserName_SetString packet username with
  | (_, Some e) =>
      inr (fmt_Errorf "rfc2865: setting username string error: %w" [e])
  | (packet, None) =>
      match UserPassword_SetString packet password with
      | (_, Some e) =>
          inr (fmt_Errorf "rfc2865: setting password string error: %w" [e])
      | (packet, None) => inl packet
      end
  end.

(** Lines 46-56: the body of one goroutine; [i] is the position of [srv]
    in [r.Servers]. *)
Definition goroutine (net : Network) (timeout : Duration) (packet : Packet)
    (i : nat) (srv : string) : result :=
  match net timeout packet i srv with
  | inr e => mkResult 0 (Some e) srv
  | inl c => mkResult c None srv
  end.

(** Lines 71-82: one iteration of [for res := range ch]. *)
Definition collect_step (st : Collected) (res : result) : Collected :=
  let m := <[server res := mkEntry (code res) (err res)]> (serverResults st) in
  if code res =? CodeAccessAccept then mkCollected true (hasReject st) m
  else if code res =? CodeAccessReject then mkCollected (hasAccessAccept st) true m
  else mkCollected (hasAccessAccept st) (hasReject st) m.

Definition collect (arrivals : list result) : Collected :=
  fold_left collect_step arrivals (mkCollected false false ∅).

(** Lines 97-103: the text appended for one map entry. *)
Definition describe (kv : string * entry) : string :=
  let (srv, res) := kv in
  match e_err res with
  | Some e => srv +:+ " error: " +:+ e +:+ "; "
  | None =>
      if negb (e_code res =? 0)
      then srv +:+ " returned unknown code: " +:+ Code_String (e_code res) +:+ "; "
      else srv +:+ ": no response; "
  end.

(** Lines 95-104. *)
Definition errorMsg (it : MapIter) (m : gmap string entry) : string :=
  fold_left (fun msg kv => msg +:+ describe kv)
            (rangeOrder it (map_to_list m))
            "RADIUS authentication issues: ".

(** Lines 84-106: the three cases after the loop. *)
Definition resolve (it : MapIter) (st : Collected) : bool * option error :=
  if hasAccessAccept st then (true, None)
  else if hasReject st then (false, None)
  else (false, Some (fmt_Errorf (errorMsg it (serverResults st)) [])).

Definition checkRadiusConcurrent_run (r : HTTPRadiusAuth)
    (net : Network) (ch : Chan) (it : MapIter)
    (username password : string) : (bool * option error) * Trace :=
  match Servers r with
  | [] => ((false, Some (errors_New "no RADIUS servers configured")),
           mkTrace [] [])
  | _ =>
      match buildRequest (Secret r) username password with
      | inr e => ((false, Some e), mkTrace [] [])
      | inl packet =>
          let timeout := fst (ParseDuration (Timeout r)) in
          let sent := imap (goroutine net timeout packet) (Servers r) in
          (resolve it (collect (deliver ch sent)),
           mkTrace (map (fun srv => (timeout, srv)) (Servers r)) sent)
      end
  end.

(** [checkRadiusConcurrent]: the returned pair. *)
Definition checkRadiusConcurrent (r : HTTPRadiusAuth)
    (net : Network) (ch : Chan) (it : MapIter)
    (username password : string) : bool * option error :=
  fst (checkRadiusConcurrent_run r net ch it username password).

(** The per-server outcomes of one call. *)
Definition serverOutcomes (r : HTTPRadiusAuth)
    (net : Network) (ch : Chan) (it : MapIter)
    (username password : string) : list result :=
  outcomes (snd (checkRadiusConcurrent_run r net ch it username password)).

(** The results the goroutines of one call send, once the request packet is
    built: one per configured server, in launch order. *)
Definition sent_results (r : HTTPRadiusAuth) (net : Network) (packet : Packet)
    : list result :=
  imap (goroutine net (fst (ParseDuration (Timeout r))) packet) (Servers r).

(** The map entry the collector writes for a result, and the collector
    started from any state. *)
Definition entry_of (res : result) : entry := mkEntry (code res) (err res).

Definition collect_from (st : Collected) (l : list result) : Collected :=
  fold_left collect_step l st.

End Radius.

(** ** The Caddyfile token dispenser

    [httpcaddyfile.Helper] embeds a [caddyfile.Dispenser] over the tokens of
    one directive.  The methods [parseCaddyfile] calls, for tokens of a
    single file: a token is its text, the line it starts on and the number
    of line breaks it spans. *)

Record Token := mkToken {
  Text : string;
  Line : Z;
  NumLineBreaks : Z
}.

Record Dispenser := mkDispenser {
  tokens : list Token;
  cursor : Z;
  nesting : Z
}.

Definition NewDispenser (toks : list Token) : Dispenser :=
  mkDispenser toks (-1) 0.

Definition len_tokens (d : Dispenser) : Z := Z.of_nat (length (tokens d)).

Definition set_cursor (d : Dispenser) (c : Z) : Dispenser :=
  mkDispenser (tokens d) c (nesting d).

Definition set_nesting (d : Dispenser) (n : Z) : Dispenser :=
  mkDispenser (tokens d) (cursor d) n.

Definition token_at (d : Dispenser) (i : Z) : option Token :=
  if i <? 0 then None else tokens d !! Z.to_nat i.

Definition isNextOnNewLine (t1 t2 : Token) : bool :=
  Line t1 + NumLineBreaks t1 <? Line t2.

Definition Next (d : Dispenser) : bool * Dispenser :=
  if cursor d <? len_tokens d - 1
  then (true, set_cursor d (cursor d + 1))
  else (false, d).

Definition Val (d : Dispenser) : string :=
  match token_at d (cursor d) with
  | Some t => Text t
  | None => EmptyString
  end.

Definition nextOnSameLine (d : Dispenser) : bool * Dispenser :=
  if cursor d <? 0 then (true, set_cursor d (cursor d + 1))
  else if len_tokens d - 1 <=? cursor d then (false, d)
  else
    match token_at d (cursor d), token_at d (cursor d + 1) with
    | Some curr, Some next =>
        if negb (isNextOnNewLine curr next)
        then (true, set_cursor d (cursor d + 1))
        else (false, d)
    | _, _ => (false, d)
    end.

Definition NextArg (d : Dispenser) : bool * Dispenser :=
  let (same, d) := nextOnSameLine d in
  if negb same then (false, d)
  else if String.eqb (Val d) "{" then (false, set_cursor d (cursor d - 1))
  else (true, d).

(** [RemainingArgs]: [for d.NextArg() { args = append(args, d.Val()) }].
    Every successful [NextArg] moves the cursor one token forward, so the
    number of tokens bounds the number of iterations. *)
Fixpoint RemainingArgs_loop (n : nat) (d : Dispenser) (args : list string)
    : list string * Dispenser :=
  match n with
  | O => (args, d)
  | S n =>
      let (more, d') := NextArg d in
      if more then RemainingArgs_loop n d' (args ++ [Val d'])
      else (args, d')
  end.

Definition RemainingArgs (d : Dispenser) : list string * Dispenser :=
  RemainingArgs_loop (S (length (tokens d))) d [].

Definition NextBlock (d : Dispenser) (initialNestingLevel : Z) : bool * Dispenser :=
  if initialNestingLevel <? nesting d then
    let (ok, d) := Next d in
    if negb ok then (false, d)
    else
      let d :=
        if String.eqb (Val d) "}" then
          let (same, d) := nextOnSameLine d in
          if negb same then set_nesting d (nesting d - 1)
          else if String.eqb (Val d) "{" then
            let (same, d) := nextOnSameLine d in
            if negb same then set_nesting d (nesting d + 1) else d
          else d
        else if String.eqb (Val d) "{" then
          let (same, d) := nextOnSameLine d in
          if negb same then set_nesting d (nesting d + 1) else d
        else d in
      (initialNestingLevel <? nesting d, d)
  else
    let (same, d) := nextOnSameLine d in
    if negb same then (false, d)
    else if negb (String.eqb (Val d) "{") then (false, set_cursor d (cursor d - 1))
    else
      let (_, d) := Next d in
      if String.eqb (Val d) "}" then (false, d)
      else (true, set_nesting d (nesting d + 1)).

(** [moves d d']: same tokens, the cursor did not go back, and a cursor on
    a token stays on a token. *)
Definition moves (d d' : Dispenser) : Prop :=
  tokens d' = tokens d /\
  cursor d <= cursor d' /\
  (0 <= cursor d -> cursor d <= len_tokens d - 1 -> cursor d' <= len_tokens d - 1).

(** ** caddyfile.go: parseCaddyfile *)

Definition set_Servers (r : HTTPRadiusAuth) (v : list string) : HTTPRadiusAuth :=
  mkHTTPRadiusAuth v (Secret r) (Realm r) (Timeout r) (CacheTTL r) (cache r).
Definition set_Secret (r : HTTPRadiusAuth) (v : string) : HTTPRadiusAuth :=
  mkHTTPRadiusAuth (Servers r) v (Realm r) (Timeout r) (CacheTTL r) (cache r).
Definition set_Realm (r : HTTPRadiusAuth) (v : string) : HTTPRadiusAuth :=
  mkHTTPRadiusAuth (Servers r) (Secret r) v (Timeout r) (CacheTTL r) (cache r).
Definition set_Timeout (r : HTTPRadiusAuth) (v : string) : HTTPRadiusAuth :=
  mkHTTPRadiusAuth (Servers r) (Secret r) (Realm r) v (CacheTTL r) (cache r).
Definition set_CacheTTL (r : HTTPRadiusAuth) (v : string) : HTTPRadiusAuth :=
  mkHTTPRadiusAuth (Servers r) (Secret r) (Realm r) (Timeout r) v (cache r).
Definition set_cache (r : HTTPRadiusAuth) (v : option Cache) : HTTPRadiusAuth :=
  mkHTTPRadiusAuth (Servers r) (Secret r) (Realm r) (Timeout r) (CacheTTL r) v.

(** [var ra HTTPRadiusAuth]: the zero value. *)
Definition zero_HTTPRadiusAuth : HTTPRadiusAuth :=
  mkHTTPRadiusAuth [] EmptyString EmptyString EmptyString EmptyString None.

(** The janitor goroutine started by [cache.New]: a [DeleteExpired] at each
    of the instants [ts]; and the receiver as a later call finds it when
    the janitor ran at [ts] in between. *)
Definition janitor (ts : list Z) (c : Cache) : Cache :=
  fold_left cache_DeleteExpired ts c.

Definition after_janitor (ts : list Z) (r : HTTPRadiusAuth) : HTTPRadiusAuth :=
  set_cache r (janitor ts <$> cache r).

Definition is_nil {A} (e : option A) : bool :=
  match e with None => true | Some _ => false end.

Section Caddyfile.
Context `{RL : RadiusLib} `{GT : GoTime} `{GN : GoNet}.

(** Lines 43-49: the two tests one [servers] argument has to pass. *)
Definition serverArgError (s : string) : option error :=
  if negb (Contains s ":")
  then Some (h_Errf "invalid RADIUS server address: %s (must include port)" [s])
  else
    let '(host, port, err) := SplitHostPort s in
    if negb (is_nil err) || String.eqb host EmptyString || String.eqb port EmptyString
    then Some (h_Errf "invalid RADIUS server format: %s" [s])
    else None.

(** An address that passes the tests of lines 43-49. *)
Definition accepted_arg (s : string) : Prop := serverArgError s = None.

(** What the loop of [parseCaddyfile] keeps true of [ra], besides the
    addresses: a duration field is empty or parses, the cache pointer is
    nil. *)
Definition durations_checked (ra : HTTPRadiusAuth) : Prop :=
  (Timeout ra = EmptyString \/ snd (ParseDuration (Timeout ra)) = None) /\
  (CacheTTL ra = EmptyString \/ snd (ParseDuration (CacheTTL ra)) = None) /\
  cache ra = None.

(** Lines 42-51: [for _, s := range args]. *)
Fixpoint appendServers (args : list string) (ra : HTTPRadiusAuth)
    : error + HTTPRadiusAuth :=
  match args with
  | [] => inr ra
  | s :: args =>
      match serverArgError s with
      | Some e => inl e
      | None => appendServers args (set_Servers ra (Servers ra ++ [s]))
      end
  end.

(** Lines 34-87: the [switch h.Val()] of one loop iteration. *)
Definition directive (h : Dispenser) (ra : HTTPRadiusAuth)
    : error + (Dispenser * HTTPRadiusAuth) :=
  let v := Val h in
  if String.eqb v "servers" then
    let (args, h) := RemainingArgs h in
    match args with
    | [] => inl (h_Err "servers requires at least one address")
    | _ =>
        match appendServers args ra with
        | inl e => inl e
        | inr ra => inr (h, ra)
        end
    end
  else if String.eqb v "secret" then
    let (ok, h) := NextArg h in
    if negb ok then inl (h_Err "secret requires a value")
    else inr (h, set_Secret ra (Val h))
  else if String.eqb v "realm" then
    let (ok, h) := NextArg h in
    if negb ok then inl (h_Err "realm requires a value")
    else inr (h, set_Realm ra (Val h))
  else if String.eqb v "timeout" then
    let (ok, h) := NextArg h in
    if negb ok then inl (h_Err "timeout requires a duration value (e.g. 3s)")
    else
      match snd (ParseDuration (Val h)) with
      | Some e => inl (h_Errf "invalid timeout duration: %v" [e])
      | None => inr (h, set_Timeout ra (Val h))
      end
  else if String.eqb v "cache_ttl" then
    let (ok, h) := NextArg h in
    if negb ok then inl (h_Err "cache_ttl requires a duration value (e.g. 300s)")
    else
      match snd (ParseDuration (Val h)) with
      | Some e => inl (h_Errf "invalid cache_ttl duration: %v" [e])
      | None => inr (h, set_CacheTTL ra (Val h))
      end
  else inl (h_Errf "unrecognized directive: %s" [v]).

(** Lines 33-88: [for h.NextBlock(0) { ... }].  [None] only when the
    iteration budget [n] is used up. *)
Fixpoint block_loop (n : nat) (h : Dispenser) (ra : HTTPRadiusAuth)
    : option (error + HTTPRadiusAuth) :=
  match n with
  | O => None
  | S n =>
      let (more, h) := NextBlock h 0 in
      if negb more then Some (inr ra)
      else
        match directive h ra with
        | inl e => Some (inl e)
        | inr (h, ra) => block_loop n h ra
        end
  end.

(** [parseCaddyfile].  The handler it returns wraps the JSON encoding of
    [ra]; the value returned here is [ra] itself. *)
Definition parseCaddyfile (h : Dispenser) : option (error + HTTPRadiusAuth) :=
  let (_, h) := Next h in
  match block_loop (S (length (tokens h))) h zero_HTTPRadiusAuth with
  | None => None
  | Some (inl e) => Some (inl e)
  | Some (inr ra) =>
      match Servers ra with
      | [] => Some (inl (fmt_Errorf "at least one RADIUS server must be defined" []))
      | _ =>
          if String.eqb (Secret ra) EmptyString
          then Some (inl (fmt_Errorf "radius secret must be set" []))
          else Some (inr ra)
      end
  end.

(** ** The module: Provision, isValidServerAddr *)

(** The two defaults [Provision] fills in. *)
Definition effective_Timeout (r : HTTPRadiusAuth) : string :=
  if String.eqb (Timeout r) EmptyString then "3s" else Timeout r.

Definition effective_CacheTTL (r : HTTPRadiusAuth) : string :=
  if String.eqb (CacheTTL r) EmptyString then "0s" else CacheTTL r.

(** [isValidServerAddr] validates a host:port format. *)
Definition isValidServerAddr (addr : string) : bool :=
  let '(host, port, err) := SplitHostPort addr in
  if negb (is_nil err) || String.eqb host EmptyString || String.eqb port EmptyString
  then false
  else if is_nil (ParseIP host) && Contains host " " then false
  else true.

(** Lines 167-174: the valid addresses, and one line printed for each
    address skipped. *)
Fixpoint validateServers (servers valid : list string) (out : list string)
    : list string * list string :=
  match servers with
  | [] => (valid, out)
  | s :: servers =>
      if isValidServerAddr s
      then validateServers servers (valid ++ [s]) out
      else validateServers servers valid
             (out ++ ["[caddy-radius] skipped invalid RADIUS server: " +:+ s])
  end.

(** [Provision]: the struct after the call (the receiver is a pointer, so
    assignments made before an error return stay), the returned error and
    the lines printed. *)
Definition Provision (r : HTTPRadiusAuth)
    : HTTPRadiusAuth * option error * list string :=
  match Servers r with
  | [] => (r, Some (fmt_Errorf "no RADIUS servers configured" []), [])
  | _ =>
  if String.eqb (Secret r) EmptyString
  then (r, Some (fmt_Errorf "missing RADIUS shared secret" []), [])
  else
    let r := if String.eqb (Timeout r) EmptyString then set_Timeout r "3s" else r in
    let r := if String.eqb (CacheTTL r) EmptyString then set_CacheTTL r "0s" else r in
    let (cacheTTL, err) := ParseDuration (CacheTTL r) in
    match err with
    | Some e => (r, Some (fmt_Errorf "invalid cache_ttl duration: %v" [e]), [])
    | None =>
        let r :=
          if 0 <? cacheTTL
          then set_cache r (Some (cache_New cacheTTL 1000000000))
          else set_cache r None in
        let (valid, out) := validateServers (Servers r) [] [] in
        let r := set_Servers r valid in
        match Servers r with
        | [] => (r, Some (fmt_Errorf "no valid RADIUS servers remain after validation" []), out)
        | _ => (r, None, out)
        end
    end
  end.

End Caddyfile.

(** ** The module: Authenticate, promptForCredentials *)

(** [caddyauth.User]; only [ID] is ever set. *)
Record User := mkUser { ID : string }.

(** What is done to the [http.ResponseWriter], in call order.
    [http_Error_radius e status] is
    [http.Error(w, fmt.Sprintf("RADIUS error: %v", e), status)]. *)
Inductive WEvent : Type :=
| http_Error (body : string) (status : Z)
| http_Error_radius (e : error) (status : Z)
| Header_Set (key value : string).

Definition StatusUnauthorized : Z := 401.
Definition StatusInternalServerError : Z := 500.

(** The two clock readings a call can make: inside [cache.Get] and inside
    [cache.SetDefault]. *)
Record Clock := mkClock {
  now_Get : Z;
  now_Set : Z
}.

(** [fmt.Sprintf("%s:%s", user, pass)]. *)
Definition CacheKey (user pass : string) : string :=
  user +:+ ":" +:+ pass.

(** Where [user] and [pass] come from: [req.BasicAuth()] decodes the
    Authorization header and ends with [strings.Cut(cs, ":")], which splits
    the decoded text at its first colon ([None]: no colon, [ok] is false). *)
Fixpoint Cut_colon (cs : string) : option (string * string) :=
  match cs with
  | EmptyString => None
  | String c cs' =>
      if Ascii.eqb c ":" then Some (EmptyString, cs')
      else match Cut_colon cs' with
           | Some (before, after) => Some (String c before, after)
           | None => None
           end
  end.

(** One call of [Authenticate]: the three returned values, the writer
    events, the receiver with the state of its cache object after the call,
    the call of [checkRadiusConcurrent] if one was made (its returned pair
    and its trace), and the [SetDefault] calls made. *)
Record AuthResult := mkAuthResult {
  user : User;
  authed : bool;
  aerr : option error;
  writer : list WEvent;
  self : HTTPRadiusAuth;
  invoked : option ((bool * option error) * Trace);
  stores : list (string * bool)
}.

Definition dquote : string := String (Ascii.ascii_of_nat 34) EmptyString.

Definition promptForCredentials (r : HTTPRadiusAuth) (w : list WEvent)
    (err : option error) : (User * bool * option error) * list WEvent :=
  let realm := Realm r in
  let realm := if String.eqb realm EmptyString then "restricted" else realm in
  ((mkUser EmptyString, false, err),
   (w ++ [Header_Set "WWW-Authenticate"
             ("Basic realm=" +:+ dquote +:+ realm +:+ dquote)])%list).

Section Authenticate.
Context `{RL : RadiusLib} `{GT : GoTime}.

Definition returning (ret : (User * bool * option error) * list WEvent)
    (r : HTTPRadiusAuth) (inv : option ((bool * option error) * Trace))
    (st : list (string * bool)) : AuthResult :=
  let '((u, ok, e), w) := ret in mkAuthResult u ok e w r inv st.

(** [cache.Get] behind the [r.cache != nil] test. *)
Definition lookup_cache (r : HTTPRadiusAuth) (now : Z) (key : string) : option bool :=
  match cache r with
  | Some c => cache_Get c now key
  | None => None
  end.

(** [basicAuth] is what [req.BasicAuth()] returned: [None] when [ok] is
    false. *)
Definition Authenticate (r : HTTPRadiusAuth) (w : list WEvent)
    (basicAuth : option (string * string)) (clk : Clock)
    (net : Network) (ch : Chan) (it : MapIter) : AuthResult :=
  match basicAuth with
  | None => returning (promptForCredentials r w None) r None []
  | Some (user, pass) =>
      let cacheKey := CacheKey user pass in
      match lookup_cache r (now_Get clk) cacheKey with
      | Some cachedResult =>
          if cachedResult
          then returning ((mkUser user, true, None), w) r None []
          else
            let w := (w ++ [http_Error "Unauthorized" StatusUnauthorized])%list in
            returning (promptForCredentials r w None) r None []
      | None =>
          let run := checkRadiusConcurrent_run r net ch it user pass in
          let (ok, err) := fst run in
          match err with
          | Some e =>
              let w := (w ++ [http_Error_radius e StatusInternalServerError])%list in
              returning (promptForCredentials r w None) r (Some run) []
          | None =>
              let (r', st) :=
                match cache r with
                | Some c =>
                    (set_cache r (Some (cache_SetDefault c (now_Set clk) cacheKey ok)),
                     [(cacheKey, ok)])
                | None => (r, [])
                end in
              if negb ok
              then
                let w := (w ++ [http_Error "Unauthorized" StatusUnauthorized])%list in
                returning (promptForCredentials r w None) r' (Some run) st
              else returning ((mkUser user, true, None), w) r' (Some run) st
          end
      end
  end.

(** The [radius.Exchange] calls one call of [Authenticate] made. *)
Definition exchanges_of (res : AuthResult) : list (Duration * string) :=
  match invoked res with
  | Some run => exchanges (snd run)
  | None => []
  end.

End Authenticate.

(** ** The dependencies, for the examples

    Instances of the three interfaces, written after the library sources:
    layeh.com/radius ([NewString], [NewUserPassword], [Code.String]), Go's
    [time.ParseDuration] and [net.SplitHostPort], [net.ParseIP].  The
    theorems below hold for every instance; the examples, witnesses and
    counterexamples run on these.  Two simplifications: [ParseDuration]
    adds the fractional part by exact integer division where Go multiplies
    [float64]s, and [ParseIP] reads dotted-decimal IPv4 literals only. *)

Module GoLib.

Definition is_digit (c : ascii) : bool :=
  (48 <=? Z.of_nat (nat_of_ascii c)) && (Z.of_nat (nat_of_ascii c) <=? 57).

Definition digit_val (c : ascii) : Z := Z.of_nat (nat_of_ascii c) - 48.

Definition strlen (s : string) : Z := Z.of_nat (String.length s).

Fixpoint IndexByte (s : string) (c : ascii) : option nat :=
  match s with
  | EmptyString => None
  | String d s' =>
      if Ascii.eqb d c then Some O
      else match IndexByte s' c with
           | Some i => Some (S i)
           | None => None
           end
  end.

Fixpoint LastIndexByte (s : string) (c : ascii) : option nat :=
  match s with
  | EmptyString => None
  | String d s' =>
      match LastIndexByte s' c with
      | Some i => Some (S i)
      | None => if Ascii.eqb d c then Some O else None
      end
  end.

(** [s[i:]] and [s[:i]]. *)
Fixpoint drop_str (i : nat) (s : string) : string :=
  match i, s with
  | O, _ => s
  | S i, String _ s' => drop_str i s'
  | S _, EmptyString => EmptyString
  end.

Fixpoint take_str (i : nat) (s : string) : string :=
  match i, s with
  | O, _ => EmptyString
  | S i, String c s' => String c (take_str i s')
  | S _, EmptyString => EmptyString
  end.

Definition Itoa (z : Z) : string := pretty z.

(** *** layeh.com/radius *)

Record packet := mkPacket {
  p_code : Code;
  p_secret : string;
  p_username : option string;
  p_password : option string
}.

Definition New (c : Code) (secret : string) : packet :=
  mkPacket c secret None None.

Definition SetUserName (p : packet) (v : string) : packet * option string :=
  if 253 <? strlen v then (p, Some "string too long")
  else (mkPacket (p_code p) (p_secret p) (Some v) (p_password p), None).

Definition SetUserPassword (p : packet) (v : string) : packet * option string :=
  if 128 <? strlen v then (p, Some "plaintext longer than 128 characters")
  else if strlen (p_secret p) =? 0 then (p, Some "empty secret")
  else (mkPacket (p_code p) (p_secret p) (p_username p) (Some v), None).

Definition CodeString (c : Code) : string :=
  if c =? 1 then "Access-Request"
  else if c =? 2 then "Access-Accept"
  else if c =? 3 then "Access-Reject"
  else if c =? 4 then "Accounting-Request"
  else if c =? 5 then "Accounting-Response"
  else if c =? 11 then "Access-Challenge"
  else if c =? 12 then "Status-Server"
  else if c =? 13 then "Status-Client"
  else if c =? 40 then "Disconnect-Request"
  else if c =? 41 then "Disconnect-ACK"
  else if c =? 42 then "Disconnect-NAK"
  else if c =? 43 then "CoA-Request"
  else if c =? 44 then "CoA-ACK"
  else if c =? 45 then "CoA-NAK"
  else if c =? 255 then "Reserved"
  else "Code(" +:+ Itoa c +:+ ")".

#[export] Instance radius : RadiusLib := {|
  Packet := packet;
  radius_New := New;
  UserName_SetString := SetUserName;
  UserPassword_SetString := SetUserPassword;
  Code_String := CodeString
|}.

(** *** time.ParseDuration *)

Definition two63 : Z := 9223372036854775808.

(** [leadingInt]: the leading digits as a number and the rest; [None] on
    overflow. *)
Fixpoint leadingInt (s : string) (x : Z) : option (Z * string) :=
  match s with
  | String c s' =>
      if is_digit c then
        if two63 / 10 <? x then None
        else
          let x := x * 10 + digit_val c in
          if two63 <? x then None else leadingInt s' x
      else Some (x, s)
  | EmptyString => Some (x, s)
  end.

(** [leadingFraction]: digits are dropped once the number would overflow. *)
Fixpoint leadingFraction (s : string) (x scale : Z) (overflow : bool)
    : Z * Z * string :=
  match s with
  | String c s' =>
      if is_digit c then
        if overflow then leadingFraction s' x scale overflow
        else if (two63 - 1) / 10 <? x then leadingFraction s' x scale true
        else
          let y := x * 10 + digit_val c in
          if two63 <? y then leadingFraction s' x scale true
          else leadingFraction s' y (scale * 10) overflow
      else (x, scale, s)
  | EmptyString => (x, scale, s)
  end.

Fixpoint unit_end (s : string) : nat :=
  match s with
  | String c s' =>
      if Ascii.eqb c "." || is_digit c then O else S (unit_end s')
  | EmptyString => O
  end.

Definition micro_sign : string :=
  String (ascii_of_nat 194) (String (ascii_of_nat 181) "s").
Definition greek_mu : string :=
  String (ascii_of_nat 206) (String (ascii_of_nat 188) "s").

Definition unitMap (u : string) : option Z :=
  if String.eqb u "ns" then Some 1
  else if String.eqb u "us" then Some 1000
  else if String.eqb u micro_sign then Some 1000
  else if String.eqb u greek_mu then Some 1000
  else if String.eqb u "ms" then Some 1000000
  else if String.eqb u "s" then Some 1000000000
  else if String.eqb u "m" then Some 60000000000
  else if String.eqb u "h" then Some 3600000000000
  else None.

Definition quote (s : string) : string := dquote +:+ s +:+ dquote.

Definition invalid (orig : string) : string :=
  "time: invalid duration " +:+ quote orig.

(** The [for s != ""] loop; every iteration consumes the unit, at least one
    byte, so the length of the input bounds the iterations. *)
Fixpoint groups (n : nat) (orig s : string) (d : Z) : Z + string :=
  match n, s with
  | _, EmptyString => inl d
  | O, _ => inr (invalid orig)
  | S n, String c _ =>
      if negb (Ascii.eqb c "." || is_digit c) then inr (invalid orig)
      else
        match leadingInt s 0 with
        | None => inr (invalid orig)
        | Some (v, s1) =>
            let pre := negb (strlen s =? strlen s1) in
            let '(f, scale, s2, post) :=
              match s1 with
              | String "." s1' =>
                  let '(f, scale, s2) := leadingFraction s1' 0 1 false in
                  (f, scale, s2, negb (strlen s1' =? strlen s2))
              | _ => (0, 1, s1, false)
              end in
            if negb pre && negb post then inr (invalid orig)
            else
              let i := unit_end s2 in
              match i with
              | O => inr ("time: missing unit in duration " +:+ quote orig)
              | _ =>
                  let u := take_str i s2 in
                  let s3 := drop_str i s2 in
                  match unitMap u with
                  | None => inr ("time: unknown unit " +:+ quote u
                                 +:+ " in duration " +:+ quote orig)
                  | Some unit =>
                      if two63 / unit <? v then inr (invalid orig)
                      else
                        let v := v * unit in
                        let v := if 0 <? f then v + f * unit / scale else v in
                        if two63 <? v then inr (invalid orig)
                        else
                          let d := d + v in
                          if two63 <? d then inr (invalid orig)
                          else groups n orig s3 d
                  end
              end
        end
  end.

Definition parseDuration (orig : string) : Z + string :=
  let (neg, s) :=
    match orig with
    | String "-" s' => (true, s')
    | String "+" s' => (false, s')
    | _ => (false, orig)
    end in
  if String.eqb s "0" then inl 0
  else if String.eqb s EmptyString then inr (invalid orig)
  else
    match groups (String.length s) orig s 0 with
    | inr e => inr e
    | inl d =>
        if neg then inl (- d)
        else if two63 - 1 <? d then inr (invalid orig)
        else inl d
    end.

Definition ParseDuration_go (s : string) : Duration * option string :=
  match parseDuration s with
  | inl d => (d, None)
  | inr e => (0, Some e)
  end.

#[export] Instance time : GoTime := {|
  ParseDuration := ParseDuration_go;
  ParseDuration_failure :=
    ltac:(intros s d e; unfold ParseDuration_go;
          destruct (parseDuration s); congruence)
|}.

(** *** net.SplitHostPort, net.ParseIP *)

Definition addrErr (addr why : string) : string * string * option string :=
  (EmptyString, EmptyString, Some ("address " +:+ addr +:+ ": " +:+ why)).

Definition missingPort : string := "missing port in address".
Definition tooManyColons : string := "too many colons in address".

Definition byte_at (s : string) (i : nat) : option ascii := String.get i s.

Definition SplitHostPort_go (hostport : string) : string * string * option string :=
  match LastIndexByte hostport ":" with
  | None => addrErr hostport missingPort
  | Some i =>
      let bracketed :=
        match hostport with String "[" _ => true | _ => false end in
      let parsed : (string * nat * nat) + (string * string * option string) :=
        if bracketed then
          match IndexByte hostport "]" with
          | None => inr (addrErr hostport "missing ']' in address")
          | Some end_ =>
              if Nat.eqb (S end_) (String.length hostport)
              then inr (addrErr hostport missingPort)
              else if Nat.eqb (S end_) i
              then inl (take_str (end_ - 1) (drop_str 1 hostport), 1%nat, S end_)
              else
                match byte_at hostport (S end_) with
                | Some ":"%char => inr (addrErr hostport tooManyColons)
                | _ => inr (addrErr hostport missingPort)
                end
          end
        else
          let host := take_str i hostport in
          match IndexByte host ":" with
          | Some _ => inr (addrErr hostport tooManyColons)
          | None => inl (host, O, O)
          end in
      match parsed with
      | inr e => e
      | inl (host, j, k) =>
          match IndexByte (drop_str j hostport) "[" with
          | Some _ => addrErr hostport "unexpected '[' in address"
          | None =>
              match IndexByte (drop_str k hostport) "]" with
              | Some _ => addrErr hostport "unexpected ']' in address"
              | None => (host, drop_str (S i) hostport, None)
              end
          end
      end
  end.

(** One decimal field of an IPv4 literal: one to three digits, no leading
    zero unless the field is "0", at most 255. *)
Fixpoint all_digits (s : string) : bool :=
  match s with
  | EmptyString => true
  | String c s' => is_digit c && all_digits s'
  end.

Fixpoint dec_value (s : string) (acc : Z) : Z :=
  match s with
  | EmptyString => acc
  | String c s' => dec_value s' (acc * 10 + digit_val c)
  end.

Definition ipv4_field (s : string) : option Z :=
  let n := String.length s in
  if Nat.eqb n 0 || Nat.ltb 3 n || negb (all_digits s) then None
  else if Nat.ltb 1 n && HasPrefix s "0" then None
  else if 255 <? dec_value s 0 then None
  else Some (dec_value s 0).

Fixpoint split_dots (s : string) (cur : string) : list string :=
  match s with
  | EmptyString => [cur]
  | String c s' =>
      if Ascii.eqb c "." then cur :: split_dots s' EmptyString
      else split_dots s' (cur +:+ String c EmptyString)
  end.

Definition ParseIPv4 (s : string) : option (Z * Z * Z * Z) :=
  match split_dots s EmptyString with
  | [a; b; c; d] =>
      match ipv4_field a, ipv4_field b, ipv4_field c, ipv4_field d with
      | Some a, Some b, Some c, Some d => Some (a, b, c, d)
      | _, _, _, _ => None
      end
  | _ => None
  end.

#[export] Instance net : GoNet := {|
  IP := Z * Z * Z * Z;
  SplitHostPort := SplitHostPort_go;
  ParseIP := ParseIPv4
|}.

End GoLib.

(** ** Inputs of the examples *)

Module Ex.
Import GoLib.

(** The channel hands results over in launch order, or in reverse. *)
Definition fifo : Chan := mkChan (fun l => l) (fun l => Permutation_refl l).
Definition lifo : Chan := mkChan reverse reverse_Permutation.

(** The map is iterated in the order [map_to_list] lists it. *)
Definition in_order : MapIter := mkMapIter (fun l => l) (fun l => Permutation_refl l).

Definition two_servers : HTTPRadiusAuth :=
  mkHTTPRadiusAuth ["10.0.0.1:1812"; "10.0.0.2:1812"]
                   "sharedsecret" "Restricted Area" "3s" "1m" None.

(** One address configured twice. *)
Definition same_twice : HTTPRadiusAuth :=
  mkHTTPRadiusAuth ["10.0.0.1:1812"; "10.0.0.1:1812"]
                   "sharedsecret" "Restricted Area" "3s" "1m" None.

(** The first dispatch times out; the second is answered with [c]. *)
Definition timeout_then (c : Code) : Network :=
  fun _ _ i _ =>
    match i with
    | O => inr "context deadline exceeded"
    | _ => inl c
    end.

(** The first dispatch is refused, the second times out. *)
Definition all_down : Network :=
  fun _ _ i _ =>
    match i with
    | O => inr "connection refused"
    | _ => inr "context deadline exceeded"
    end.

(** The first dispatch is answered with Access-Challenge (code 11), the
    second times out. *)
Definition challenge_then_timeout : Network :=
  fun _ _ i _ =>
    match i with
    | O => inl 11
    | _ => inr "context deadline exceeded"
    end.

(** [two_servers] after [Provision] with a TTL of one minute: the cache
    object exists and is empty. *)
Definition one_minute : Duration := 60000000000.

Definition empty_cache : Cache := cache_New one_minute 1000000000.

Definition cached : HTTPRadiusAuth := set_cache two_servers (Some empty_cache).

(** A request handled at 12:00:00 (lookup) and stored 2 s later, as
    nanoseconds since the epoch; and lookups 30 s and 61 s after the
    store. *)
Definition noon : Z := 1767268800000000000.
Definition first_call : Clock := mkClock noon (noon + 2000000000).
Definition half_minute_later : Clock :=
  mkClock (noon + 32000000000) (noon + 33000000000).
Definition after_ttl : Clock :=
  mkClock (noon + 63000000000) (noon + 64000000000).

(** A JSON configuration with one good address and one without a port, no
    timeout and no cache TTL. *)
Definition mixed : HTTPRadiusAuth :=
  mkHTTPRadiusAuth ["10.0.0.1:1812"; "bogus"] "sharedsecret"
                   EmptyString EmptyString EmptyString None.

(** A JSON configuration whose timeout is not a duration. *)
Definition bad_timeout : HTTPRadiusAuth :=
  mkHTTPRadiusAuth ["10.0.0.1:1812"; "10.0.0.2:1812"] "sharedsecret"
                   EmptyString "soon" EmptyString None.

(** The tokens of
<<
    radius_auth {
        servers 10.0.0.1:1812 bogus
        secret sharedsecret
    }
>> *)
Definition caddyfile_bad_server : list Token :=
  [mkToken "radius_auth" 1 0; mkToken "{" 1 0;
   mkToken "servers" 2 0; mkToken "10.0.0.1:1812" 2 0; mkToken "bogus" 2 0;
   mkToken "secret" 3 0; mkToken "sharedsecret" 3 0;
   mkToken "}" 4 0].

(** A JSON configuration whose cache TTL is not a duration. *)
Definition bad_ttl : HTTPRadiusAuth :=
  mkHTTPRadiusAuth ["10.0.0.1:1812"; "bogus"] "sharedsecret"
                   EmptyString EmptyString "forever" None.

(** The tokens of
<<
    radius_auth {
        servers 10.0.0.1:1812 10.0.0.2:1812
        secret sharedsecret
        timeout 5s
        cache_ttl 1m
    }
>> *)
Definition caddyfile_good : list Token :=
  [mkToken "radius_auth" 1 0; mkToken "{" 1 0;
   mkToken "servers" 2 0; mkToken "10.0.0.1:1812" 2 0; mkToken "10.0.0.2:1812" 2 0;
   mkToken "secret" 3 0; mkToken "sharedsecret" 3 0;
   mkToken "timeout" 4 0; mkToken "5s" 4 0;
   mkToken "cache_ttl" 5 0; mkToken "1m" 5 0;
   mkToken "}" 6 0].

(** What [parseCaddyfile] makes of them. *)
Definition parsed_good : HTTPRadiusAuth :=
  mkHTTPRadiusAuth ["10.0.0.1:1812"; "10.0.0.2:1812"] "sharedsecret"
                   EmptyString "5s" "1m" None.

End Ex.

(** * Properties *)

(** ** Strings *)


Lemma string_app_cons (c : ascii) (a b : string) :
  String c a +:+ b = String c (a +:+ b).
Proof. reflexivity. Qed.

Lemma string_app_assoc (a b c : string) : (a +:+ b) +:+ c = a +:+ b +:+ c.
Proof.
  induction a as [|x a IH]; [reflexivity|].
  rewrite !string_app_cons, IH. reflexivity.
Qed.

Lemma string_app_nil_r (a : string) : a +:+ EmptyString = a.
Proof.
  induction a as [|x a IH]; [reflexivity|].
  rewrite string_app_cons, IH. reflexivity.
Qed.



Lemma Contains_cons (c : ascii) (s sub : string) :
  Contains (String c s) sub
  = if HasPrefix (String c s) sub then true else Contains s sub.
Proof. reflexivity. Qed.


(** ** The collector loop *)

Section RadiusFacts.
Context `{RL : RadiusLib} `{GT : GoTime}.

Lemma serverResults_step st res :
  serverResults (collect_step st res)
  = <[server res := entry_of res]> (serverResults st).
Proof.
  unfold collect_step.
  destruct (code res =? CodeAccessAccept); [reflexivity|].
  destruct (code res =? CodeAccessReject); reflexivity.
Qed.

Lemma hasAccessAccept_step st res :
  hasAccessAccept (collect_step st res)
  = (code res =? CodeAccessAccept) || hasAccessAccept st.
Proof.
  unfold collect_step.
  destruct (code res =? CodeAccessAccept); [reflexivity|].
  destruct (code res =? CodeAccessReject); reflexivity.
Qed.

Lemma hasReject_step st res :
  hasReject (collect_step st res)
  = (code res =? CodeAccessReject) || hasReject st.
Proof.
  unfold collect_step.
  destruct (code res =? CodeAccessAccept) eqn:Ha.
  - apply Z.eqb_eq in Ha. rewrite Ha. reflexivity.
  - destruct (code res =? CodeAccessReject); reflexivity.
Qed.

Lemma hasAccessAccept_from l : forall st,
  hasAccessAccept (collect_from st l) = true
  <-> hasAccessAccept st = true \/ exists res, res ∈ l /\ code res = CodeAccessAccept.
Proof.
  induction l as [|x l IH]; intros st; simpl.
  - split; [auto|]. intros [H|(res & Hin & _)]; [exact H|]. inversion Hin.
  - rewrite IH, hasAccessAccept_step, orb_true_iff, Z.eqb_eq. split.
    + intros [[H|H]|(res & Hin & Hc)].
      * right. exists x. split; [left|exact H].
      * left. exact H.
      * right. exists res. split; [right; exact Hin|exact Hc].
    + intros [H|(res & Hin & Hc)].
      * left. right. exact H.
      * apply elem_of_cons in Hin as [->|Hin].
        -- left. left. exact Hc.
        -- right. exists res. split; assumption.
Qed.

Lemma hasReject_from l : forall st,
  hasReject (collect_from st l) = true
  <-> hasReject st = true \/ exists res, res ∈ l /\ code res = CodeAccessReject.
Proof.
  induction l as [|x l IH]; intros st; simpl.
  - split; [auto|]. intros [H|(res & Hin & _)]; [exact H|]. inversion Hin.
  - rewrite IH, hasReject_step, orb_true_iff, Z.eqb_eq. split.
    + intros [[H|H]|(res & Hin & Hc)].
      * right. exists x. split; [left|exact H].
      * left. exact H.
      * right. exists res. split; [right; exact Hin|exact Hc].
    + intros [H|(res & Hin & Hc)].
      * left. right. exact H.
      * apply elem_of_cons in Hin as [->|Hin].
        -- left. left. exact Hc.
        -- right. exists res. split; assumption.
Qed.

Lemma collect_hasAccessAccept l :
  hasAccessAccept (collect l) = true
  <-> exists res, res ∈ l /\ code res = CodeAccessAccept.
Proof.
  unfold collect. fold (collect_from (mkCollected false false ∅) l).
  rewrite hasAccessAccept_from. simpl. split; [|auto].
  intros [H|H]; [discriminate|exact H].
Qed.

Lemma collect_hasReject l :
  hasReject (collect l) = true
  <-> exists res, res ∈ l /\ code res = CodeAccessReject.
Proof.
  unfold collect. fold (collect_from (mkCollected false false ∅) l).
  rewrite hasReject_from. simpl. split; [|auto].
  intros [H|H]; [discriminate|exact H].
Qed.

(** A server no arriving result names keeps its map entry. *)
Lemma serverResults_untouched l : forall st srv,
  (forall res, res ∈ l -> server res <> srv) ->
  serverResults (collect_from st l) !! srv = serverResults st !! srv.
Proof.
  induction l as [|x l IH]; intros st srv Hno; simpl; [reflexivity|].
  rewrite IH.
  - rewrite serverResults_step. apply lookup_insert_ne. apply Hno. left.
  - intros res Hin. apply Hno. right. exact Hin.
Qed.


(** With pairwise distinct servers every result keeps its own entry. *)
Lemma serverResults_own l : forall st res,
  NoDup (server <$> l) -> res ∈ l ->
  serverResults (collect_from st l) !! server res = Some (entry_of res).
Proof.
  induction l as [|x l IH]; intros st res Hnd Hin; [inversion Hin|].
  simpl in *. apply NoDup_cons in Hnd as [Hx Hnd].
  apply elem_of_cons in Hin as [->|Hin].
  - rewrite serverResults_untouched.
    + rewrite serverResults_step. apply lookup_insert_eq.
    + intros res' Hin' Heq. apply Hx. apply list_elem_of_fmap.
      exists res'. split; [symmetry; exact Heq|exact Hin'].
  - apply IH; assumption.
Qed.

Lemma serverResults_perm (l1 l2 : list result) :
  l1 ≡ₚ l2 -> NoDup (server <$> l1) ->
  serverResults (collect l1) = serverResults (collect l2).
Proof.
  intros Hp Hnd. apply map_eq. intros srv. unfold collect.
  fold (collect_from (mkCollected false false ∅) l1).
  fold (collect_from (mkCollected false false ∅) l2).
  assert (Hnd2 : NoDup (server <$> l2)) by (rewrite <- Hp; exact Hnd).
  destruct (decide (srv ∈ (server <$> l1))) as [Hin|Hnot].
  - apply list_elem_of_fmap in Hin as (res & -> & Hin).
    rewrite (serverResults_own l1) by assumption.
    rewrite (serverResults_own l2); [reflexivity|exact Hnd2|].
    rewrite <- Hp. exact Hin.
  - rewrite !serverResults_untouched; [reflexivity| |].
    + intros res Hin Heq. apply Hnot. apply list_elem_of_fmap.
      exists res. split; [symmetry; exact Heq|]. rewrite Hp. exact Hin.
    + intros res Hin Heq. apply Hnot. apply list_elem_of_fmap.
      exists res. split; [symmetry; exact Heq|exact Hin].
Qed.

End RadiusFacts.

(** ** checkRadiusConcurrent *)

Section RadiusClaims.
Context `{RL : RadiusLib} `{GT : GoTime}.

Lemma server_goroutine net t packet i srv :
  server (goroutine net t packet i srv) = srv.
Proof. unfold goroutine. destruct (net t packet i srv); reflexivity. Qed.

Lemma servers_sent r net packet :
  server <$> sent_results r net packet = Servers r.
Proof.
  unfold sent_results.
  assert (H : forall (l : list string) (g : nat -> string -> result),
             (forall i s, server (g i s) = s) -> server <$> imap g l = l).
  { induction l as [|s l IH]; intros g Hg; [reflexivity|].
    simpl. rewrite Hg, IH; [reflexivity|]. intros i s'. apply Hg. }
  apply H. intros i s. apply server_goroutine.
Qed.

(** A call either returns before any dispatch, with an error and no outcome,
    or builds the packet, dispatches to every server and resolves what the
    channel delivered. *)
Lemma run_cases r net ch it u p :
  (exists e,
     checkRadiusConcurrent_run r net ch it u p
     = ((false, Some e), mkTrace [] []))
  \/ (exists packet,
        Servers r <> [] /\
        buildRequest (Secret r) u p = inl packet /\
        checkRadiusConcurrent_run r net ch it u p
        = (resolve it (collect (deliver ch (sent_results r net packet))),
           mkTrace (map (fun srv => (fst (ParseDuration (Timeout r)), srv)) (Servers r))
                   (sent_results r net packet))).
Proof.
  unfold checkRadiusConcurrent_run, sent_results.
  destruct (Servers r) as [|s l] eqn:Hs.
  - left. eexists. reflexivity.
  - destruct (buildRequest (Secret r) u p) as [packet|e].
    + right. exists packet. split; [discriminate|]. split; reflexivity.
    + left. eexists. reflexivity.
Qed.

Lemma outcomes_resolved r net ch it u p res :
  res ∈ serverOutcomes r net ch it u p ->
  exists packet,
    buildRequest (Secret r) u p = inl packet /\
    serverOutcomes r net ch it u p = sent_results r net packet /\
    checkRadiusConcurrent r net ch it u p
    = resolve it (collect (deliver ch (sent_results r net packet))).
Proof.
  unfold serverOutcomes, checkRadiusConcurrent.
  destruct (run_cases r net ch it u p) as [(e & ->)|(packet & _ & Hb & ->)].
  - simpl. intros H. inversion H.
  - intros _. exists packet. split; [exact Hb|]. split; reflexivity.
Qed.

(** Once the packet is built, what the network answers to the dispatch at
    position [i] is one of the outcomes of the call. *)
Lemma outcome_at_position r net ch it u p packet i srv :
  buildRequest (Secret r) u p = inl packet ->
  Servers r !! i = Some srv ->
  goroutine net (fst (ParseDuration (Timeout r))) packet i srv
  ∈ serverOutcomes r net ch it u p.
Proof.
  intros Hb Hi. unfold serverOutcomes.
  destruct (run_cases r net ch it u p) as [(e & He)|(packet' & _ & Hb' & ->)].
  - exfalso. revert He. unfold checkRadiusConcurrent_run. rewrite Hb.
    destruct (Servers r); [discriminate Hi|discriminate].
  - assert (packet' = packet) as -> by congruence. simpl.
    apply list_elem_of_lookup. exists i. unfold sent_results.
    rewrite list_lookup_imap, Hi. reflexivity.
Qed.

(** C1. If the outcome of at least one configured server is Access-Accept,
    [checkRadiusConcurrent] returns [(true, nil)]: for every credential
    pair, every network behaviour, every delivery order of the channel and
    every position of the accepting server, whatever the other servers
    did. *)
Theorem accept_from_any_server r net ch it u p :
  (exists res, res ∈ serverOutcomes r net ch it u p /\ code res = CodeAccessAccept) ->
  checkRadiusConcurrent r net ch it u p = (true, None).
Proof.
  intros (res & Hin & Hc).
  destruct (outcomes_resolved _ _ _ _ _ _ _ Hin) as (packet & _ & Ho & ->).
  rewrite Ho in Hin. unfold resolve.
  assert (H : hasAccessAccept (collect (deliver ch (sent_results r net packet))) = true).
  { apply collect_hasAccessAccept. exists res. split; [|exact Hc].
    rewrite (deliver_perm ch). exact Hin. }
  rewrite H. reflexivity.
Qed.

(** C2. If no outcome is Access-Accept and at least one is Access-Reject,
    [checkRadiusConcurrent] returns [(false, nil)]. *)
Theorem reject_without_accept r net ch it u p :
  (forall res, res ∈ serverOutcomes r net ch it u p -> code res <> CodeAccessAccept) ->
  (exists res, res ∈ serverOutcomes r net ch it u p /\ code res = CodeAccessReject) ->
  checkRadiusConcurrent r net ch it u p = (false, None).
Proof.
  intros Hno (res & Hin & Hc).
  destruct (outcomes_resolved _ _ _ _ _ _ _ Hin) as (packet & _ & Ho & ->).
  rewrite Ho in Hin, Hno. unfold resolve.
  destruct (hasAccessAccept (collect (deliver ch (sent_results r net packet)))) eqn:Ha.
  - apply collect_hasAccessAccept in Ha as (res' & Hin' & Hc').
    exfalso. apply (Hno res'); [|exact Hc'].
    rewrite <- (deliver_perm ch). exact Hin'.
  - assert (H : hasReject (collect (deliver ch (sent_results r net packet))) = true).
    { apply collect_hasReject. exists res. split; [|exact Hc].
      rewrite (deliver_perm ch). exact Hin. }
    rewrite H. reflexivity.
Qed.

Lemma errorMsg_fold (l : list (string * entry)) : forall (init : string),
  fold_left (fun msg kv => msg +:+ describe kv) l init
  = init +:+ fold_right (fun kv rest => describe kv +:+ rest) EmptyString l.
Proof.
  induction l as [|kv l IH]; intros init; simpl.
  - symmetry. apply string_app_nil_r.
  - rewrite IH. apply string_app_assoc.
Qed.




(** The pair returned does not depend on the channel when it comes to the
    boolean and to whether the error is nil. *)
Lemma resolve_flags it (l1 l2 : list result) :
  l1 ≡ₚ l2 ->
  fst (resolve it (collect l1)) = fst (resolve it (collect l2)) /\
  (snd (resolve it (collect l1)) = None <-> snd (resolve it (collect l2)) = None).
Proof.
  intros Hp.
  assert (Ha : hasAccessAccept (collect l1) = hasAccessAccept (collect l2)).
  { apply eq_true_iff_eq. rewrite !collect_hasAccessAccept.
    split; intros (res & Hin & Hc); exists res; (split; [|exact Hc]);
      [rewrite <- Hp|rewrite Hp]; exact Hin. }
  assert (Hj : hasReject (collect l1) = hasReject (collect l2)).
  { apply eq_true_iff_eq. rewrite !collect_hasReject.
    split; intros (res & Hin & Hc); exists res; (split; [|exact Hc]);
      [rewrite <- Hp|rewrite Hp]; exact Hin. }
  unfold resolve. rewrite Ha, Hj.
  destruct (hasAccessAccept (collect l2)); [simpl; tauto|].
  destruct (hasReject (collect l2)); simpl; [tauto|].
  split; [reflexivity|]. split; discriminate.
Qed.

Lemma resolve_perm it (l1 l2 : list result) :
  l1 ≡ₚ l2 -> NoDup (server <$> l1) ->
  resolve it (collect l1) = resolve it (collect l2).
Proof.
  intros Hp Hnd.
  assert (Ha : hasAccessAccept (collect l1) = hasAccessAccept (collect l2)).
  { apply eq_true_iff_eq. rewrite !collect_hasAccessAccept.
    split; intros (res & Hin & Hc); exists res; (split; [|exact Hc]);
      [rewrite <- Hp|rewrite Hp]; exact Hin. }
  assert (Hj : hasReject (collect l1) = hasReject (collect l2)).
  { apply eq_true_iff_eq. rewrite !collect_hasReject.
    split; intros (res & Hin & Hc); exists res; (split; [|exact Hc]);
      [rewrite <- Hp|rewrite Hp]; exact Hin. }
  unfold resolve. rewrite Ha, Hj, (serverResults_perm l1 l2 Hp Hnd). reflexivity.
Qed.

(** C8, as the code has it.  For two delivery orders of the same outcomes
    the returned boolean is the same and the returned error is nil in both
    calls or in neither; when the configured addresses are pairwise
    distinct the whole returned pair is the same (for a given iteration
    order of the map the message is built from). *)
Theorem arrival_order_independent r net ch1 ch2 it u p :
  fst (checkRadiusConcurrent r net ch1 it u p)
  = fst (checkRadiusConcurrent r net ch2 it u p) /\
  (snd (checkRadiusConcurrent r net ch1 it u p) = None
   <-> snd (checkRadiusConcurrent r net ch2 it u p) = None) /\
  (NoDup (Servers r) ->
   checkRadiusConcurrent r net ch1 it u p = checkRadiusConcurrent r net ch2 it u p).
Proof.
  unfold checkRadiusConcurrent.
  destruct (run_cases r net ch1 it u p) as [(e & He)|(packet & Hne & Hb & He)].
  - assert (He2 : checkRadiusConcurrent_run r net ch2 it u p
                  = ((false, Some e), mkTrace [] [])).
    { revert He. unfold checkRadiusConcurrent_run.
      destruct (Servers r); [trivial|].
      destruct (buildRequest (Secret r) u p); [discriminate|trivial]. }
    rewrite He, He2. simpl. tauto.
  - destruct (run_cases r net ch2 it u p) as [(e & He2)|(packet2 & _ & Hb2 & He2)].
    + exfalso. revert He2. unfold checkRadiusConcurrent_run.
      destruct (Servers r); [contradiction|]. rewrite Hb. discriminate.
    + assert (packet2 = packet) as -> by congruence.
      rewrite He, He2. simpl.
      assert (Hp : deliver ch1 (sent_results r net packet)
                   ≡ₚ deliver ch2 (sent_results r net packet)).
      { rewrite !deliver_perm. reflexivity. }
      destruct (resolve_flags it _ _ Hp) as [Hf Hn].
      split; [exact Hf|]. split; [exact Hn|].
      intros Hnd. apply resolve_perm; [exact Hp|].
      rewrite (deliver_perm ch1), servers_sent. exact Hnd.
Qed.

End RadiusClaims.

(** ** The cache *)

Lemma Expired_later now now' item :
  now <= now' -> Expired now item = true -> Expired now' item = true.
Proof.
  unfold Expired. rewrite !andb_true_iff, !Z.ltb_lt. lia.
Qed.

(** A key that misses keeps missing as the clock advances. *)
Lemma cache_Get_None_later c now now' k :
  now <= now' -> cache_Get c now k = None -> cache_Get c now' k = None.
Proof.
  unfold cache_Get. intros Hle. destruct (items c !! k) as [item|]; [|trivial].
  destruct (Expired now item) eqn:He; [|discriminate].
  intros _. rewrite (Expired_later now now' item Hle He). reflexivity.
Qed.

Lemma wrap64_int64 z : int64 z -> wrap64 z = z.
Proof.
  unfold int64, wrap64. intros H. rewrite Z.mod_small by lia. lia.
Qed.

Lemma wrap64_above z : 2 ^ 63 <= z < 2 ^ 64 -> wrap64 z < 0.
Proof.
  unfold wrap64. intros H.
  replace (z + 2 ^ 63) with ((z - 2 ^ 63) + 1 * 2 ^ 64) by lia.
  rewrite Z.mod_add by lia. rewrite Z.mod_small by lia. lia.
Qed.

(** What [Get] finds right after a [SetDefault] of the same key. *)
Lemma cache_Get_SetDefault c t k x now :
  cache_Get (cache_SetDefault c t k x) now k
  = if (0 <? defaultExpiration c)
       && (0 <? wrap64 (t + defaultExpiration c))
       && (wrap64 (t + defaultExpiration c) <? now)
    then None else Some x.
Proof.
  unfold cache_Get, cache_SetDefault, cache_Set, Expired. simpl.
  rewrite lookup_insert_eq. simpl.
  destruct (0 <? defaultExpiration c); simpl; reflexivity.
Qed.

(** The janitor removes only what [Get] already refuses to return. *)
Lemma cache_Get_DeleteExpired c tj now k :
  tj <= now -> cache_Get (cache_DeleteExpired c tj) now k = cache_Get c now k.
Proof.
  intros Hle. unfold cache_Get, cache_DeleteExpired. simpl.
  destruct (items c !! k) as [item|] eqn:Hk.
  - destruct (Expired tj item) eqn:He.
    + rewrite (Expired_later tj now item Hle He).
      rewrite map_lookup_filter_None_2; [reflexivity|].
      right. intros x Hx. simpl. rewrite Hk in Hx. injection Hx as <-.
      rewrite He. discriminate.
    + erewrite map_lookup_filter_Some_2; [reflexivity|exact Hk|exact He].
  - rewrite map_lookup_filter_None_2; [reflexivity|]. left. exact Hk.
Qed.

(** ** Authenticate *)

Section AuthenticateClaims.
Context `{RL : RadiusLib} `{GT : GoTime}.

(** A fresh hit: the cached boolean is returned and nothing else happens. *)
Lemma Authenticate_hit r w u p clk net ch it b :
  lookup_cache r (now_Get clk) (CacheKey u p) = Some b ->
  authed (Authenticate r w (Some (u, p)) clk net ch it) = b /\
  aerr (Authenticate r w (Some (u, p)) clk net ch it) = None /\
  invoked (Authenticate r w (Some (u, p)) clk net ch it) = None /\
  stores (Authenticate r w (Some (u, p)) clk net ch it) = [] /\
  self (Authenticate r w (Some (u, p)) clk net ch it) = r /\
  user (Authenticate r w (Some (u, p)) clk net ch it)
  = (if b then mkUser u else mkUser EmptyString).
Proof.
  intros Hl. unfold Authenticate. rewrite Hl.
  destruct b; simpl; repeat split; reflexivity.
Qed.

(** A miss: [checkRadiusConcurrent] is called, and the cache object is
    written exactly when the error it returns is nil and the pointer is not
    nil. *)
Lemma Authenticate_miss r w u p clk net ch it :
  lookup_cache r (now_Get clk) (CacheKey u p) = None ->
  invoked (Authenticate r w (Some (u, p)) clk net ch it)
  = Some (checkRadiusConcurrent_run r net ch it u p) /\
  authed (Authenticate r w (Some (u, p)) clk net ch it)
  = match snd (fst (checkRadiusConcurrent_run r net ch it u p)) with
    | None => fst (fst (checkRadiusConcurrent_run r net ch it u p))
    | Some _ => false
    end /\
  aerr (Authenticate r w (Some (u, p)) clk net ch it) = None /\
  match snd (fst (checkRadiusConcurrent_run r net ch it u p)), cache r with
  | None, Some c =>
      stores (Authenticate r w (Some (u, p)) clk net ch it)
      = [(CacheKey u p, fst (fst (checkRadiusConcurrent_run r net ch it u p)))] /\
      self (Authenticate r w (Some (u, p)) clk net ch it)
      = set_cache r
          (Some (cache_SetDefault c (now_Set clk) (CacheKey u p)
                   (fst (fst (checkRadiusConcurrent_run r net ch it u p)))))
  | _, _ =>
      stores (Authenticate r w (Some (u, p)) clk net ch it) = [] /\
      self (Authenticate r w (Some (u, p)) clk net ch it) = r
  end.
Proof.
  intros Hl. unfold Authenticate. rewrite Hl.
  destruct (checkRadiusConcurrent_run r net ch it u p) as [[ok e] tr]. simpl.
  destruct e as [e|]; simpl.
  - repeat split; reflexivity.
  - destruct (cache r) as [c|]; destruct ok; simpl; repeat split; reflexivity.
Qed.

Lemma invoked_miss r w u p clk net ch it run :
  invoked (Authenticate r w (Some (u, p)) clk net ch it) = Some run ->
  lookup_cache r (now_Get clk) (CacheKey u p) = None.
Proof.
  destruct (lookup_cache r (now_Get clk) (CacheKey u p)) as [b|] eqn:Hl; [|trivial].
  destruct (Authenticate_hit r w u p clk net ch it b Hl) as (_ & _ & Hi & _).
  rewrite Hi. discriminate.
Qed.

(** Janitor runs up to the time of a lookup do not change what it finds. *)
Lemma lookup_after_janitor ts r now key :
  Forall (fun t => t <= now) ts ->
  lookup_cache (after_janitor ts r) now key = lookup_cache r now key.
Proof.
  unfold lookup_cache, after_janitor. simpl.
  destruct (cache r) as [c|]; [|reflexivity]. simpl.
  revert c. induction ts as [|t ts IH]; intros c Hall; [reflexivity|].
  apply Forall_cons in Hall as [Ht Hall]. unfold janitor in *. simpl.
  rewrite IH by exact Hall. apply cache_Get_DeleteExpired. exact Ht.
Qed.

(** Every address is contacted once the packet is built. *)
Lemma exchanges_all_servers r net ch it u p packet :
  buildRequest (Secret r) u p = inl packet ->
  snd <$> exchanges (snd (checkRadiusConcurrent_run r net ch it u p)) = Servers r.
Proof.
  intros Hb. unfold checkRadiusConcurrent_run. rewrite Hb.
  destruct (Servers r) as [|s l]; [reflexivity|]. simpl.
  f_equal. induction l as [|x l IH]; [reflexivity|]. simpl. f_equal. exact IH.
Qed.

(** [checkRadiusConcurrent] does not read the [cache] field. *)
Lemma run_set_cache r c net ch it u p :
  checkRadiusConcurrent_run (set_cache r c) net ch it u p
  = checkRadiusConcurrent_run r net ch it u p.
Proof. reflexivity. Qed.

(** C4. With the cache enabled, a call of [Authenticate] stores into the
    cache exactly when its call of [checkRadiusConcurrent] returned a nil
    error, and then it stores the returned boolean under the CacheKey of
    the credentials.  When [checkRadiusConcurrent] returns an error, nothing
    is stored, the cache is as it was, and the next call with the same
    credentials (whether or not the janitor ran in between) calls
    [checkRadiusConcurrent] again, which contacts every configured server
    once the packet is built. *)
Theorem cache_written_iff_resolved r c w ba clk net ch it :
  cache r = Some c ->
  let res := Authenticate r w ba clk net ch it in
  (stores res <> [] <-> exists b tr, invoked res = Some ((b, None), tr)) /\
  (forall b tr, invoked res = Some ((b, None), tr) ->
     exists u p, ba = Some (u, p) /\
       stores res = [(CacheKey u p, b)] /\
       cache (self res)
       = Some (cache_SetDefault c (now_Set clk) (CacheKey u p) b)) /\
  (forall b e tr, invoked res = Some ((b, Some e), tr) ->
     stores res = [] /\ self res = r /\
     exists u p, ba = Some (u, p) /\
       forall ts w' clk' net' ch' it',
         now_Get clk <= now_Get clk' ->
         Forall (fun t => t <= now_Get clk') ts ->
         invoked (Authenticate (after_janitor ts (self res)) w' (Some (u, p))
                    clk' net' ch' it')
         = Some (checkRadiusConcurrent_run r net' ch' it' u p) /\
         (forall packet, buildRequest (Secret r) u p = inl packet ->
            snd <$> exchanges (snd (checkRadiusConcurrent_run r net' ch' it' u p))
            = Servers r)).
Proof.
  intros Hc res. subst res.
  destruct ba as [[u p]|].
  2:{ simpl. split; [split; [intros H; contradiction|intros (b & tr & H); discriminate]|].
      split; intros; discriminate. }
  destruct (lookup_cache r (now_Get clk) (CacheKey u p)) as [b0|] eqn:Hl.
  - destruct (Authenticate_hit r w u p clk net ch it b0 Hl) as (_ & _ & Hi & Hs & _).
    rewrite Hi, Hs. split; [split; [intros H; contradiction|intros (b & tr & H); discriminate]|].
    split; intros; discriminate.
  - destruct (Authenticate_miss r w u p clk net ch it Hl) as (Hi & _ & _ & Hw).
    rewrite Hi. rewrite Hc in Hw.
    destruct (checkRadiusConcurrent_run r net ch it u p) as [[ok e] tr] eqn:Hrun.
    cbn [fst snd] in Hw. destruct e as [e|].
    + destruct Hw as [Hs Hself]. rewrite Hs, Hself.
      split; [split; [intros H; contradiction|intros (b & tr' & H); discriminate]|].
      split; [intros; discriminate|].
      intros b e' tr' _. split; [reflexivity|]. split; [reflexivity|].
      exists u, p. split; [reflexivity|].
      intros ts w' clk' net' ch' it' Hle Hts. split.
      * apply (Authenticate_miss (after_janitor ts r)).
        rewrite lookup_after_janitor by exact Hts.
        unfold lookup_cache in *. rewrite Hc in *.
        eapply cache_Get_None_later; eassumption.
      * intros packet Hb. eapply exchanges_all_servers. exact Hb.
    + destruct Hw as [Hs Hself]. rewrite Hs, Hself.
      split; [split; [intros _; eauto|discriminate]|].
      split; [|intros; discriminate].
      intros b tr' Heq. injection Heq as <- <-.
      exists u, p. repeat split; reflexivity.
Qed.

(** C5. With the cache enabled (a positive TTL, as [Provision] creates it),
    clock readings that are [int64] nanoseconds since the epoch, and a
    first call whose [checkRadiusConcurrent] returned [(b, nil)]: a
    second call with the same credentials whose lookup happens no later
    than the store time plus the TTL returns [b] from the cache, calls
    neither [checkRadiusConcurrent] nor [radius.Exchange] and stores
    nothing; a second call whose lookup happens later than that calls
    [checkRadiusConcurrent] afresh.  The janitor may have run any number of
    times between the two calls. *)
Theorem cached_verdict_served r c w u p clk net ch it b tr :
  cache r = Some c ->
  0 < defaultExpiration c < 2 ^ 63 ->
  0 <= now_Set clk < 2 ^ 63 ->
  invoked (Authenticate r w (Some (u, p)) clk net ch it) = Some ((b, None), tr) ->
  let r1 := self (Authenticate r w (Some (u, p)) clk net ch it) in
  forall ts w' clk' net' ch' it',
    int64 (now_Get clk') ->
    Forall (fun t => t <= now_Get clk') ts ->
    let res' := Authenticate (after_janitor ts r1) w' (Some (u, p))
                  clk' net' ch' it' in
    (now_Get clk' <= now_Set clk + defaultExpiration c ->
       authed res' = b /\ aerr res' = None /\ invoked res' = None /\
       stores res' = [] /\ self res' = after_janitor ts r1 /\
       exchanges_of res' = []) /\
    (now_Set clk + defaultExpiration c < now_Get clk' ->
       invoked res' = Some (checkRadiusConcurrent_run r net' ch' it' u p)).
Proof.
  intros Hc Hd Ht Hinv r1 ts w' clk' net' ch' it' Hnow Hts.
  pose proof (invoked_miss _ _ _ _ _ _ _ _ _ Hinv) as Hl.
  destruct (Authenticate_miss r w u p clk net ch it Hl) as (Hi & _ & _ & Hw).
  rewrite Hinv in Hi. injection Hi as Hrun. rewrite <- Hrun, Hc in Hw.
  cbn [fst snd] in Hw. destruct Hw as [_ Hself].
  assert (Hlook : forall now,
            int64 now ->
            lookup_cache r1 now (CacheKey u p)
            = if now_Set clk + defaultExpiration c <? now then None else Some b).
  { intros now Hn. subst r1. rewrite Hself. unfold lookup_cache. simpl.
    rewrite cache_Get_SetDefault.
    assert (H1 : (0 <? defaultExpiration c) = true) by (apply Z.ltb_lt; lia).
    rewrite H1. simpl. unfold int64 in Hn.
    destruct (Z.lt_ge_cases (now_Set clk + defaultExpiration c) (2 ^ 63)) as [Hs|Hb].
    - rewrite wrap64_int64 by (unfold int64; lia).
      assert (H2 : (0 <? now_Set clk + defaultExpiration c) = true)
        by (apply Z.ltb_lt; lia).
      rewrite H2. reflexivity.
    - assert (Hw : wrap64 (now_Set clk + defaultExpiration c) < 0)
        by (apply wrap64_above; lia).
      assert (H2 : (0 <? wrap64 (now_Set clk + defaultExpiration c)) = false)
        by (apply Z.ltb_ge; lia).
      rewrite H2. simpl.
      destruct (Z.ltb_spec (now_Set clk + defaultExpiration c) now); [lia|reflexivity]. }
  split.
  - intros Hle.
    assert (Hh : lookup_cache (after_janitor ts r1) (now_Get clk') (CacheKey u p)
                 = Some b).
    { rewrite lookup_after_janitor by exact Hts. rewrite Hlook by exact Hnow. destruct (Z.ltb_spec (now_Set clk + defaultExpiration c) (now_Get clk'));
        [lia|reflexivity]. }
    destruct (Authenticate_hit (after_janitor ts r1) w' u p clk' net' ch' it' b Hh)
      as (Ha & He & Hi & Hs & Hse & _).
    unfold exchanges_of. rewrite Hi. repeat split; assumption.
  - intros Hlt.
    assert (Hm : lookup_cache (after_janitor ts r1) (now_Get clk') (CacheKey u p)
                 = None).
    { rewrite lookup_after_janitor by exact Hts. rewrite Hlook by exact Hnow. destruct (Z.ltb_spec (now_Set clk + defaultExpiration c) (now_Get clk'));
        [reflexivity|lia]. }
    destruct (Authenticate_miss (after_janitor ts r1) w' u p clk' net' ch' it' Hm)
      as (Hi & _).
    rewrite Hi. subst r1. rewrite Hself. reflexivity.
Qed.

End AuthenticateClaims.

(** ** Provision *)

Section ProvisionClaims.
Context `{RL : RadiusLib} `{GT : GoTime} `{GN : GoNet}.

Lemma validateServers_filter servers : forall valid out,
  fst (validateServers servers valid out)
  = (valid ++ List.filter isValidServerAddr servers)%list.
Proof.
  induction servers as [|s l IH]; intros valid out; simpl.
  - rewrite app_nil_r. reflexivity.
  - destruct (isValidServerAddr s); rewrite IH; [|reflexivity].
    rewrite <- app_assoc. reflexivity.
Qed.

(** What a successful [Provision] leaves in the struct. *)
Lemma Provision_success r r' out :
  Provision r = (r', None, out) ->
  exists d,
    ParseDuration (effective_CacheTTL r) = (d, None) /\
    r' = mkHTTPRadiusAuth (List.filter isValidServerAddr (Servers r))
           (Secret r) (Realm r) (effective_Timeout r) (effective_CacheTTL r)
           (if 0 <? d then Some (cache_New d 1000000000) else None) /\
    List.filter isValidServerAddr (Servers r) <> [].
Proof.
  unfold Provision, effective_CacheTTL, effective_Timeout.
  destruct (Servers r) as [|s0 l0] eqn:Hs; [discriminate|].
  destruct (String.eqb (Secret r) EmptyString); [discriminate|].
  set (r1 := if String.eqb (Timeout r) EmptyString then set_Timeout r "3s" else r).
  set (r2 := if String.eqb (CacheTTL r1) EmptyString then set_CacheTTL r1 "0s" else r1).
  assert (H1 : Servers r1 = Servers r /\ Secret r1 = Secret r /\ Realm r1 = Realm r /\
               CacheTTL r1 = CacheTTL r /\
               Timeout r1 = (if String.eqb (Timeout r) EmptyString then "3s" else Timeout r)).
  { subst r1. destruct (String.eqb (Timeout r) EmptyString); simpl; repeat split; reflexivity. }
  destruct H1 as (Hs1 & Hk1 & Hr1 & Hc1 & Ht1).
  assert (H2 : Servers r2 = Servers r /\ Secret r2 = Secret r /\ Realm r2 = Realm r /\
               Timeout r2 = Timeout r1 /\
               CacheTTL r2 = (if String.eqb (CacheTTL r) EmptyString then "0s" else CacheTTL r)).
  { subst r2. rewrite Hc1. destruct (String.eqb (CacheTTL r) EmptyString); simpl;
      repeat split; assumption. }
  destruct H2 as (Hs2 & Hk2 & Hr2 & Ht2 & Hc2).
  rewrite Hc2. destruct (ParseDuration _) as [d e] eqn:Hp.
  destruct e as [e|]; [discriminate|].
  set (r3 := if 0 <? d then set_cache r2 (Some (cache_New d 1000000000))
             else set_cache r2 None).
  assert (H3 : Servers r3 = Servers r /\ Secret r3 = Secret r /\ Realm r3 = Realm r /\
               Timeout r3 = Timeout r1 /\ CacheTTL r3 = CacheTTL r2 /\
               cache r3 = (if 0 <? d then Some (cache_New d 1000000000) else None)).
  { subst r3. destruct (0 <? d); simpl; repeat split; assumption. }
  destruct H3 as (Hs3 & Hk3 & Hr3 & Ht3 & Hc3 & Hcache3).
  destruct (validateServers (Servers r3) [] []) as [valid out'] eqn:Hv.
  pose proof (validateServers_filter (Servers r3) [] []) as Hf.
  rewrite Hv in Hf. simpl in Hf. subst valid. rewrite Hs3, Hs.
  remember (List.filter isValidServerAddr (s0 :: l0)) as fl eqn:Hfl.
  cbn [Servers set_Servers].
  destruct fl as [|v vs]; [discriminate|].
  intros Heq. injection Heq as <- <-. exists d. split; [reflexivity|].
  split; [|discriminate].
  unfold set_Servers. rewrite Hk3, Hr3, Ht3, Hc3, Hcache3, Ht1, Hc2. reflexivity.
Qed.

(** The error [Provision] returns does not depend on the [Timeout] field. *)
Lemma Provision_ignores_Timeout r t :
  snd (fst (Provision (set_Timeout r t))) = snd (fst (Provision r)).
Proof.
  unfold Provision. simpl.
  destruct (Servers r) as [|s0 l0] eqn:Hs; [reflexivity|].
  destruct (String.eqb (Secret r) EmptyString); [reflexivity|].
  destruct (String.eqb t EmptyString), (String.eqb (Timeout r) EmptyString); simpl;
    destruct (String.eqb (CacheTTL r) EmptyString); simpl;
    destruct (ParseDuration _) as [d [e|]]; simpl; try reflexivity;
    destruct (0 <? d); simpl; rewrite ?Hs;
    destruct (validateServers (s0 :: l0) [] []) as [valid out]; simpl;
    destruct valid; reflexivity.
Qed.

(** C6. When the configured cache TTL is zero, a successful [Provision]
    leaves the [cache] field nil; with a nil [cache] every lookup misses,
    no call of [Authenticate] stores anything, and every call that carries
    credentials calls [checkRadiusConcurrent] -- two consecutive calls with
    the same credentials both do -- which contacts every configured server
    once the packet is built. *)
Theorem zero_ttl_no_memoization r0 r out :
  Provision r0 = (r, None, out) ->
  fst (ParseDuration (effective_CacheTTL r0)) = 0 ->
  cache r = None /\
  (forall now key, lookup_cache r now key = None) /\
  forall w w' u p clk clk' net net' ch ch' it it',
    invoked (Authenticate r w (Some (u, p)) clk net ch it)
    = Some (checkRadiusConcurrent_run r net ch it u p) /\
    stores (Authenticate r w (Some (u, p)) clk net ch it) = [] /\
    invoked (Authenticate (self (Authenticate r w (Some (u, p)) clk net ch it))
               w' (Some (u, p)) clk' net' ch' it')
    = Some (checkRadiusConcurrent_run r net' ch' it' u p) /\
    stores (Authenticate (self (Authenticate r w (Some (u, p)) clk net ch it))
               w' (Some (u, p)) clk' net' ch' it') = [] /\
    (forall packet, buildRequest (Secret r) u p = inl packet ->
       snd <$> exchanges (snd (checkRadiusConcurrent_run r net ch it u p))
       = Servers r /\
       snd <$> exchanges (snd (checkRadiusConcurrent_run r net' ch' it' u p))
       = Servers r).
Proof.
  intros Hp Hz. destruct (Provision_success _ _ _ Hp) as (d & Hd & Hr & _).
  rewrite Hd in Hz. simpl in Hz. subst d.
  assert (Hc : cache r = None) by (rewrite Hr; reflexivity).
  assert (Hl : forall now key, lookup_cache r now key = None).
  { intros now key. unfold lookup_cache. rewrite Hc. reflexivity. }
  split; [exact Hc|]. split; [exact Hl|].
  intros w w' u p clk clk' net net' ch ch' it it'.
  destruct (Authenticate_miss r w u p clk net ch it (Hl _ _)) as (Hi & _ & _ & Hw).
  assert (Hs : stores (Authenticate r w (Some (u, p)) clk net ch it) = [] /\
               self (Authenticate r w (Some (u, p)) clk net ch it) = r).
  { rewrite Hc in Hw.
    destruct (snd (fst (checkRadiusConcurrent_run r net ch it u p))); exact Hw. }
  destruct Hs as [Hs Hself]. rewrite Hself.
  destruct (Authenticate_miss r w' u p clk' net' ch' it' (Hl _ _)) as (Hi' & _ & _ & Hw').
  assert (Hs' : stores (Authenticate r w' (Some (u, p)) clk' net' ch' it') = []).
  { rewrite Hc in Hw'.
    destruct (snd (fst (checkRadiusConcurrent_run r net' ch' it' u p))); apply Hw'. }
  repeat split; try assumption; eapply exchanges_all_servers; eassumption.
Qed.

(** C10. A [Timeout] that is not empty and does not parse: [Provision]
    keeps it as it is, and the error [Provision] returns is the one it
    returns for any other [Timeout] (the field is only replaced by "3s"
    when empty, never parsed); [checkRadiusConcurrent] then drops the parse
    error, hands the zero deadline to every [radius.Exchange] call and
    returns what the resolution of those outcomes gives. *)
Theorem unparseable_timeout_unchecked r d e :
  Timeout r <> EmptyString ->
  ParseDuration (Timeout r) = (d, Some e) ->
  (forall r' err out, Provision r = (r', err, out) -> Timeout r' = Timeout r) /\
  (forall t, snd (fst (Provision (set_Timeout r t))) = snd (fst (Provision r))) /\
  (forall r' out, Provision (set_Timeout r EmptyString) = (r', None, out) ->
     Timeout r' = "3s") /\
  forall net ch it u p,
    Forall (fun x => fst x = 0)
           (exchanges (snd (checkRadiusConcurrent_run r net ch it u p))) /\
    forall packet,
      Servers r <> [] ->
      buildRequest (Secret r) u p = inl packet ->
      checkRadiusConcurrent_run r net ch it u p
      = (resolve it (collect (deliver ch (imap (goroutine net 0 packet) (Servers r)))),
         mkTrace (map (fun srv => (0, srv)) (Servers r))
                 (imap (goroutine net 0 packet) (Servers r))).
Proof.
  intros Hne Hp.
  assert (Hd : fst (ParseDuration (Timeout r)) = 0).
  { rewrite Hp. simpl. eapply ParseDuration_failure. exact Hp. }
  assert (Hneb : String.eqb (Timeout r) EmptyString = false).
  { apply String.eqb_neq. exact Hne. }
  split; [|split; [|split]].
  - intros r' err out. unfold Provision.
    destruct (Servers r) as [|s0 l0] eqn:Hs; [intros H; injection H as <- _ _; reflexivity|].
    destruct (String.eqb (Secret r) EmptyString);
      [intros H; injection H as <- _ _; reflexivity|].
    rewrite Hneb.
    set (r2 := if String.eqb (CacheTTL r) EmptyString then set_CacheTTL r "0s" else r).
    assert (Ht2 : Timeout r2 = Timeout r).
    { subst r2. destruct (String.eqb (CacheTTL r) EmptyString); reflexivity. }
    clearbody r2.
    destruct (ParseDuration (CacheTTL r2)) as [d' [e'|]].
    + intros H. injection H as <- _ _. exact Ht2.
    + set (r3 := if 0 <? d' then set_cache r2 (Some (cache_New d' 1000000000))
                 else set_cache r2 None).
      assert (Ht3 : Timeout r3 = Timeout r).
      { subst r3. destruct (0 <? d'); exact Ht2. }
      clearbody r3.
      destruct (validateServers (Servers r3) [] []) as [valid out'].
      cbn [Servers set_Servers].
      destruct valid; intros H; injection H as <- _ _; exact Ht3.
  - intros t. apply Provision_ignores_Timeout.
  - intros r' out H. apply Provision_success in H as (d' & _ & -> & _).
    reflexivity.
  - intros net ch it u p. split.
    + unfold checkRadiusConcurrent_run.
      destruct (Servers r) as [|s0 l0]; [constructor|].
      destruct (buildRequest (Secret r) u p); [|constructor].
      rewrite Hd. simpl. apply Forall_forall. intros x Hin.
      apply elem_of_cons in Hin as [->|Hin]; [reflexivity|].
      apply list_elem_of_fmap in Hin as (s & -> & _). reflexivity.
    + intros packet Hs Hb. unfold checkRadiusConcurrent_run. rewrite Hb, Hd.
      destruct (Servers r); [contradiction|reflexivity].
Qed.

End ProvisionClaims.

(** ** CacheKey *)

Lemma HasPrefix_colon (c : ascii) (s : string) :
  HasPrefix (String c s) ":" = Ascii.eqb ":" c.
Proof.
  change (HasPrefix (String c s) ":")
    with (if Ascii.eqb ":" c then HasPrefix s EmptyString else false).
  destruct (Ascii.eqb ":" c); [destruct s|]; reflexivity.
Qed.

Lemma Contains_colon_cons (c : ascii) (s : string) :
  Contains (String c s) ":" = false ->
  c <> ":"%char /\ Contains s ":" = false.
Proof.
  rewrite Contains_cons, HasPrefix_colon.
  destruct (Ascii.eqb_spec ":" c) as [Heq|Hne]; [discriminate|].
  intros H. split; [congruence|exact H].
Qed.


Lemma CacheKey_cons (c : ascii) (u p : string) :
  CacheKey (String c u) p = String c (CacheKey u p).
Proof. reflexivity. Qed.


(** The username [req.BasicAuth()] returns has no colon, and the CacheKey
    of the pair is the decoded header text again. *)
Lemma Cut_colon_user cs : forall u p,
  Cut_colon cs = Some (u, p) -> Contains u ":" = false /\ CacheKey u p = cs.
Proof.
  induction cs as [|c cs IH]; intros u p; simpl; [discriminate|].
  destruct (Ascii.eqb_spec c ":") as [->|Hne].
  - intros [= <- <-]. split; reflexivity.
  - destruct (Cut_colon cs) as [[before after]|]; [|discriminate].
    intros [= <- <-]. destruct (IH before after eq_refl) as [Hc Hk]. split.
    + rewrite Contains_cons, HasPrefix_colon, Hc.
      destruct (Ascii.eqb_spec ":" c); [congruence|reflexivity].
    + rewrite CacheKey_cons, Hk. reflexivity.
Qed.


(** ** The dispenser *)

Lemma Val_bounds d :
  Val d <> EmptyString -> 0 <= cursor d <= len_tokens d - 1.
Proof.
  unfold Val, token_at, len_tokens.
  destruct (Z.ltb_spec (cursor d) 0) as [Hneg|Hpos]; [congruence|].
  destruct (tokens d !! Z.to_nat (cursor d)) as [t|] eqn:Hl; [|congruence].
  intros _. apply lookup_lt_Some in Hl. lia.
Qed.

Lemma Next_spec d :
  tokens (snd (Next d)) = tokens d /\
  nesting (snd (Next d)) = nesting d /\
  if fst (Next d)
  then cursor (snd (Next d)) = cursor d + 1 /\ cursor d + 1 <= len_tokens d - 1
  else snd (Next d) = d.
Proof.
  unfold Next. destruct (Z.ltb_spec (cursor d) (len_tokens d - 1)); simpl;
    repeat split; try reflexivity; lia.
Qed.

Lemma nextOnSameLine_spec d :
  tokens (snd (nextOnSameLine d)) = tokens d /\
  nesting (snd (nextOnSameLine d)) = nesting d /\
  if fst (nextOnSameLine d)
  then cursor (snd (nextOnSameLine d)) = cursor d + 1 /\
       (0 <= cursor d -> cursor d + 1 <= len_tokens d - 1)
  else snd (nextOnSameLine d) = d.
Proof.
  unfold nextOnSameLine.
  destruct (Z.ltb_spec (cursor d) 0); simpl; [repeat split; try reflexivity; lia|].
  destruct (Z.leb_spec (len_tokens d - 1) (cursor d)); simpl;
    [repeat split; reflexivity|].
  destruct (token_at d (cursor d)) as [curr|]; [|repeat split; reflexivity].
  destruct (token_at d (cursor d + 1)) as [next|]; [|repeat split; reflexivity].
  destruct (isNextOnNewLine curr next); simpl; repeat split; try reflexivity; lia.
Qed.

Lemma moves_refl d : moves d d.
Proof. unfold moves. repeat split; lia. Qed.

Lemma moves_trans d1 d2 d3 : moves d1 d2 -> moves d2 d3 -> moves d1 d3.
Proof.
  unfold moves, len_tokens. intros (Ht1 & Hc1 & Hb1) (Ht2 & Hc2 & Hb2).
  rewrite Ht1 in *. repeat split; [congruence|lia|].
  intros H0 H1. apply Hb2; [lia|]. apply Hb1; assumption.
Qed.

Lemma NextArg_spec d :
  moves d (snd (NextArg d)) /\
  (fst (NextArg d) = true -> cursor (snd (NextArg d)) = cursor d + 1).
Proof.
  unfold NextArg.
  pose proof (nextOnSameLine_spec d) as (Ht & _ & Hs).
  destruct (nextOnSameLine d) as [same d1]. simpl in *.
  destruct same; simpl.
  - destruct Hs as [Hc Hb].
    destruct (String.eqb (Val d1) "{"); simpl; unfold moves, len_tokens in *;
      simpl; rewrite ?Ht; repeat split; try congruence; try lia.
  - subst d1. split; [apply moves_refl|discriminate].
Qed.

Lemma RemainingArgs_loop_moves n : forall d args,
  moves d (snd (RemainingArgs_loop n d args)).
Proof.
  induction n as [|n IH]; intros d args; simpl; [apply moves_refl|].
  pose proof (NextArg_spec d) as [Hm _].
  destruct (NextArg d) as [more d1]. simpl in Hm.
  destruct more; simpl; [|exact Hm].
  eapply moves_trans; [exact Hm|apply IH].
Qed.

Lemma NextArg_at_end d :
  0 <= cursor d -> len_tokens d - 1 <= cursor d -> NextArg d = (false, d).
Proof.
  intros H0 H1. unfold NextArg, nextOnSameLine.
  destruct (Z.ltb_spec (cursor d) 0); [lia|].
  destruct (Z.leb_spec (len_tokens d - 1) (cursor d)); [reflexivity|lia].
Qed.

Lemma RemainingArgs_loop_S n d args :
  RemainingArgs_loop (S n) d args
  = (let (more, d') := NextArg d in
     if more then RemainingArgs_loop n d' (args ++ [Val d'])%list
     else (args, d')).
Proof. reflexivity. Qed.

(** The iteration budget of [RemainingArgs] is never what ends its loop:
    from a cursor on a token, any larger budget gives the same result. *)
Lemma RemainingArgs_loop_budget n : forall d args k,
  0 <= cursor d ->
  len_tokens d - 1 - cursor d <= Z.of_nat n ->
  RemainingArgs_loop (S n + k) d args = RemainingArgs_loop (S n) d args.
Proof.
  induction n as [|n IH]; intros d args k H0 Hn.
  - change (1 + k)%nat with (S k). rewrite !RemainingArgs_loop_S.
    rewrite NextArg_at_end by lia. reflexivity.
  - change (S (S n) + k)%nat with (S (S n + k)).
    rewrite (RemainingArgs_loop_S (S n + k)), (RemainingArgs_loop_S (S n)).
    pose proof (NextArg_spec d) as [(Ht & Hc & Hb) Hs].
    destruct (NextArg d) as [more d1]. simpl in Ht, Hc, Hb, Hs.
    destruct more; [|reflexivity].
    specialize (Hs eq_refl). apply IH; [lia|].
    unfold len_tokens in *. rewrite Ht. lia.
Qed.

Lemma set_nesting_same d n :
  tokens (set_nesting d n) = tokens d /\ cursor (set_nesting d n) = cursor d.
Proof. split; reflexivity. Qed.

(** A successful [NextBlock(0)] leaves the cursor on a token further on. *)
Lemma NextBlock_true d d' :
  -1 <= cursor d ->
  NextBlock d 0 = (true, d') ->
  tokens d' = tokens d /\ cursor d + 1 <= cursor d' /\ cursor d' <= len_tokens d - 1.
Proof.
  intros Hc. unfold NextBlock.
  destruct (0 <? nesting d).
  - pose proof (Next_spec d) as (Ht1 & _ & Hs1).
    destruct (Next d) as [ok d1]. simpl in Ht1, Hs1.
    destruct ok; simpl; [|discriminate]. destruct Hs1 as [Hc1 Hb1].
    assert (Hl1 : len_tokens d1 = len_tokens d) by (unfold len_tokens; congruence).
    pose proof (nextOnSameLine_spec d1) as (Ht2 & _ & Hs2).
    destruct (nextOnSameLine d1) as [same2 d2]. simpl in Ht2, Hs2.
    assert (Hl2 : len_tokens d2 = len_tokens d) by (unfold len_tokens; congruence).
    pose proof (nextOnSameLine_spec d2) as (Ht3 & _ & Hs3).
    destruct (nextOnSameLine d2) as [same3 d3]. simpl in Ht3, Hs3.
    destruct (String.eqb (Val d1) "}").
    + destruct same2; simpl.
      * destruct Hs2 as [Hc2 Hb2].
        destruct (String.eqb (Val d2) "{").
        -- destruct same3; simpl.
           ++ destruct Hs3 as [Hc3 Hb3]. intros [= _ <-].
              split; [congruence|]. lia.
           ++ subst d3. intros [= _ <-]. simpl. split; [congruence|]. lia.
        -- intros [= _ <-]. split; [congruence|]. lia.
      * subst d2. intros [= _ <-]. simpl. split; [congruence|]. lia.
    + destruct (String.eqb (Val d1) "{").
      * destruct same2; simpl.
        -- destruct Hs2 as [Hc2 Hb2]. intros [= _ <-]. split; [congruence|]. lia.
        -- subst d2. intros [= _ <-]. simpl. split; [congruence|]. lia.
      * intros [= _ <-]. split; [congruence|]. lia.
  - pose proof (nextOnSameLine_spec d) as (Ht1 & _ & Hs1).
    destruct (nextOnSameLine d) as [same d1]. simpl in Ht1, Hs1.
    destruct same; simpl; [|discriminate]. destruct Hs1 as [Hc1 _].
    destruct (String.eqb (Val d1) "{") eqn:Hv; simpl; [|discriminate].
    assert (Hb1 : 0 <= cursor d1 <= len_tokens d1 - 1).
    { apply Val_bounds. apply String.eqb_eq in Hv. rewrite Hv. discriminate. }
    assert (Hl1 : len_tokens d1 = len_tokens d) by (unfold len_tokens; congruence).
    pose proof (Next_spec d1) as (Ht2 & _ & Hs2).
    destruct (Next d1) as [ok d2]. simpl in Ht2, Hs2.
    destruct (String.eqb (Val d2) "}"); [discriminate|].
    intros [= <-]. simpl. split; [congruence|].
    destruct ok; [|subst d2]; lia.
Qed.

Section CaddyfileClaims.
Context `{RL : RadiusLib} `{GT : GoTime} `{GN : GoNet}.

Lemma directive_moves h ra h' ra' :
  directive h ra = inr (h', ra') -> moves h h'.
Proof.
  unfold directive.
  destruct (String.eqb (Val h) "servers").
  { pose proof (RemainingArgs_loop_moves (S (length (tokens h))) h []) as Hm.
    unfold RemainingArgs. destruct (RemainingArgs_loop _ h []) as [args h1].
    simpl in Hm. destruct args as [|a args]; [discriminate|].
    destruct (appendServers (a :: args) ra); [discriminate|].
    intros [= <- _]. exact Hm. }
  pose proof (NextArg_spec h) as [Hm _].
  destruct (NextArg h) as [ok h1]. simpl in Hm.
  destruct (String.eqb (Val h) "secret").
  { destruct ok; simpl; [|discriminate]. intros [= <- _]. exact Hm. }
  destruct (String.eqb (Val h) "realm").
  { destruct ok; simpl; [|discriminate]. intros [= <- _]. exact Hm. }
  destruct (String.eqb (Val h) "timeout").
  { destruct ok; simpl; [|discriminate].
    destruct (snd (ParseDuration (Val h1))); [discriminate|].
    intros [= <- _]. exact Hm. }
  destruct (String.eqb (Val h) "cache_ttl").
  { destruct ok; simpl; [|discriminate].
    destruct (snd (ParseDuration (Val h1))); [discriminate|].
    intros [= <- _]. exact Hm. }
  discriminate.
Qed.

(** The loop over the block always ends within the budget
    [parseCaddyfile] gives it. *)
Lemma block_loop_total n : forall h ra,
  -1 <= cursor h ->
  len_tokens h - 1 - cursor h <= Z.of_nat n ->
  exists res, block_loop (S n) h ra = Some res.
Proof.
  induction n as [|n IH]; intros h ra Hc Hn.
  - simpl. destruct (NextBlock h 0) as [more h1] eqn:Hnb.
    destruct more; simpl; [|eauto].
    apply NextBlock_true in Hnb as (_ & H1 & H2); [|exact Hc]. lia.
  - change (block_loop (S (S n)) h ra)
      with (let (more, h) := NextBlock h 0 in
            if negb more then Some (inr ra)
            else match directive h ra with
                 | inl e => Some (inl e)
                 | inr (h, ra) => block_loop (S n) h ra
                 end).
    destruct (NextBlock h 0) as [more h1] eqn:Hnb.
    destruct more; simpl; [|eauto].
    apply NextBlock_true in Hnb as (Ht1 & H1 & H2); [|exact Hc].
    destruct (directive h1 ra) as [e|[h2 ra2]] eqn:Hd; [eauto|].
    apply directive_moves in Hd as (Ht2 & H3 & H4).
    assert (Hl1 : len_tokens h1 = len_tokens h) by (unfold len_tokens; congruence).
    assert (Hl2 : len_tokens h2 = len_tokens h) by (unfold len_tokens; congruence).
    apply IH; lia.
Qed.

Lemma appendServers_accepted args : forall ra ra',
  appendServers args ra = inr ra' ->
  Forall accepted_arg (Servers ra) -> Forall accepted_arg (Servers ra').
Proof.
  induction args as [|s args IH]; intros ra ra'; simpl.
  - intros [= <-]. trivial.
  - destruct (serverArgError s) eqn:Hs; [discriminate|].
    intros Happ Hall. apply (IH _ _ Happ). simpl.
    apply Forall_app. split; [exact Hall|]. constructor; [exact Hs|constructor].
Qed.

Lemma appendServers_rejects args : forall ra,
  (exists s, s ∈ args /\ serverArgError s <> None) ->
  exists e, appendServers args ra = inl e.
Proof.
  induction args as [|s args IH]; intros ra (s' & Hin & Hbad).
  - inversion Hin.
  - simpl. destruct (serverArgError s) as [e|] eqn:Hs; [eauto|].
    apply IH. exists s'. split; [|exact Hbad].
    apply elem_of_cons in Hin as [->|Hin]; [contradiction|exact Hin].
Qed.

Lemma directive_accepted h ra h' ra' :
  directive h ra = inr (h', ra') ->
  Forall accepted_arg (Servers ra) -> Forall accepted_arg (Servers ra').
Proof.
  unfold directive.
  destruct (String.eqb (Val h) "servers").
  { destruct (RemainingArgs h) as [args h1].
    destruct args as [|a args]; [discriminate|].
    destruct (appendServers (a :: args) ra) as [e|ra1] eqn:Happ; [discriminate|].
    intros [= _ <-]. eapply appendServers_accepted. exact Happ. }
  destruct (NextArg h) as [ok h1].
  destruct (String.eqb (Val h) "secret").
  { destruct ok; simpl; [|discriminate]. intros [= _ <-]. trivial. }
  destruct (String.eqb (Val h) "realm").
  { destruct ok; simpl; [|discriminate]. intros [= _ <-]. trivial. }
  destruct (String.eqb (Val h) "timeout").
  { destruct ok; simpl; [|discriminate].
    destruct (snd (ParseDuration (Val h1))); [discriminate|].
    intros [= _ <-]. trivial. }
  destruct (String.eqb (Val h) "cache_ttl").
  { destruct ok; simpl; [|discriminate].
    destruct (snd (ParseDuration (Val h1))); [discriminate|].
    intros [= _ <-]. trivial. }
  discriminate.
Qed.

Lemma block_loop_accepted n : forall h ra ra',
  block_loop n h ra = Some (inr ra') ->
  Forall accepted_arg (Servers ra) -> Forall accepted_arg (Servers ra').
Proof.
  induction n as [|n IH]; intros h ra ra'; simpl; [discriminate|].
  destruct (NextBlock h 0) as [more h1]. destruct more; simpl.
  - destruct (directive h1 ra) as [e|[h2 ra2]] eqn:Hd; [discriminate|].
    intros Hl Hall. apply (IH _ _ _ Hl). eapply directive_accepted; eassumption.
  - intros [= <-]. trivial.
Qed.

(** C9, as the code has it.  Caddyfile parsing: [parseCaddyfile] always
    returns; a [servers] directive with an argument that fails the tests of
    lines 43-49 makes it return an error, and a configuration it returns
    holds only addresses that pass them.  [Provision]: the addresses
    [isValidServerAddr] refuses are dropped and the others kept; the call
    fails when none is left and succeeds, on a configuration with a
    secret and a cache TTL that parses, when one is. *)
Theorem unparseable_address_at_setup :
  (forall toks, exists res, parseCaddyfile (NewDispenser toks) = Some res) /\
  (forall h ra,
     String.eqb (Val h) "servers" = true ->
     (exists s, s ∈ fst (RemainingArgs h) /\ serverArgError s <> None) ->
     exists e, directive h ra = inl e) /\
  (forall h ra,
     parseCaddyfile h = Some (inr ra) ->
     Forall (fun s => serverArgError s = None) (Servers ra)) /\
  (forall r r' out,
     Provision r = (r', None, out) ->
     Servers r' = List.filter isValidServerAddr (Servers r) /\ Servers r' <> []) /\
  (forall r,
     Servers r <> [] -> Secret r <> EmptyString ->
     snd (ParseDuration (effective_CacheTTL r)) = None ->
     snd (fst (Provision r))
     = match List.filter isValidServerAddr (Servers r) with
       | [] => Some (fmt_Errorf "no valid RADIUS servers remain after validation" [])
       | _ => None
       end).
Proof.
  split; [|split; [|split; [|split]]].
  - intros toks. unfold parseCaddyfile.
    pose proof (Next_spec (NewDispenser toks)) as (Ht & _ & Hs).
    destruct (Next (NewDispenser toks)) as [ok h1]. simpl in Ht, Hs.
    assert (Hc : -1 <= cursor h1) by (destruct ok; [|subst h1]; simpl in *; lia).
    destruct (block_loop_total (length (tokens h1)) h1 zero_HTTPRadiusAuth Hc)
      as (res & Hres).
    { unfold len_tokens. lia. }
    rewrite Hres. destruct res as [e|ra]; [eauto|].
    destruct (Servers ra); [eauto|].
    destruct (String.eqb (Secret ra) EmptyString); eauto.
  - intros h ra Hv Hbad. unfold directive. rewrite Hv.
    destruct (RemainingArgs h) as [args h1]. simpl in Hbad.
    destruct args as [|a args].
    + destruct Hbad as (s & Hin & _). inversion Hin.
    + destruct (appendServers_rejects (a :: args) ra Hbad) as (e & ->). eauto.
  - intros h ra. unfold parseCaddyfile.
    destruct (Next h) as [ok h1].
    destruct (block_loop _ h1 zero_HTTPRadiusAuth) as [[e|ra1]|] eqn:Hl; try discriminate.
    destruct (Servers ra1) eqn:Hs; [discriminate|].
    destruct (String.eqb (Secret ra1) EmptyString); [discriminate|].
    intros [= <-]. eapply block_loop_accepted; [exact Hl|]. constructor.
  - intros r r' out H. apply Provision_success in H as (d & _ & -> & Hne).
    split; [reflexivity|exact Hne].
  - intros r Hs Hk Hp. unfold Provision, effective_CacheTTL in *.
    destruct (Servers r) as [|s0 l0] eqn:Hsr; [contradiction|].
    apply String.eqb_neq in Hk. rewrite Hk.
    set (r1 := if String.eqb (Timeout r) EmptyString then set_Timeout r "3s" else r).
    assert (H1 : Servers r1 = Servers r /\ CacheTTL r1 = CacheTTL r).
    { subst r1. destruct (String.eqb (Timeout r) EmptyString); split; reflexivity. }
    destruct H1 as [Hs1 Hc1]. clearbody r1.
    set (r2 := if String.eqb (CacheTTL r1) EmptyString then set_CacheTTL r1 "0s" else r1).
    assert (H2 : Servers r2 = Servers r /\
                 CacheTTL r2 = (if String.eqb (CacheTTL r) EmptyString then "0s"
                                else CacheTTL r)).
    { subst r2. rewrite Hc1. destruct (String.eqb (CacheTTL r) EmptyString);
        split; simpl; congruence. }
    destruct H2 as [Hs2 Hc2]. clearbody r2. rewrite Hc2.
    destruct (ParseDuration _) as [d e]. simpl in Hp. subst e.
    set (r3 := if 0 <? d then set_cache r2 (Some (cache_New d 1000000000))
               else set_cache r2 None).
    assert (Hs3 : Servers r3 = Servers r).
    { subst r3. destruct (0 <? d); exact Hs2. }
    clearbody r3.
    pose proof (validateServers_filter (Servers r3) [] []) as Hf.
    destruct (validateServers (Servers r3) [] []) as [valid out].
    simpl in Hf. subst valid. rewrite Hs3, Hsr. cbn [Servers set_Servers].
    destruct (List.filter isValidServerAddr (s0 :: l0)); reflexivity.
Qed.

End CaddyfileClaims.

(** * Further properties of the code *)

(** ** radius.go: the verdict and the exchanges *)

Section RadiusMore.
Context `{RL : RadiusLib} `{GT : GoTime}.

(** The three cases of lines 84-106, read backwards. *)
Lemma resolve_true it st :
  fst (resolve it st) = true <-> hasAccessAccept st = true.
Proof.
  unfold resolve. destruct (hasAccessAccept st); simpl; [tauto|].
  destruct (hasReject st); simpl; split; discriminate.
Qed.

Lemma resolve_false_nil it st :
  resolve it st = (false, None)
  <-> hasAccessAccept st = false /\ hasReject st = true.
Proof.
  unfold resolve. destruct (hasAccessAccept st); simpl.
  - split; [discriminate|intros [H _]; discriminate].
  - destruct (hasReject st); simpl; split; try tauto; try discriminate.
    intros [_ H]. discriminate.
Qed.

(** The returned boolean is true exactly when an outcome is Access-Accept. *)
Lemma check_true_iff_accept r net ch it u p :
  fst (checkRadiusConcurrent r net ch it u p) = true
  <-> exists res, res ∈ serverOutcomes r net ch it u p /\ code res = CodeAccessAccept.
Proof.
  unfold checkRadiusConcurrent, serverOutcomes.
  destruct (run_cases r net ch it u p) as [(e & ->)|(packet & _ & _ & ->)]; simpl.
  - split; [discriminate|]. intros (res & Hin & _). inversion Hin.
  - rewrite resolve_true, collect_hasAccessAccept.
    split; intros (res & Hin & Hc); exists res; (split; [|exact Hc]).
    + rewrite <- (deliver_perm ch). exact Hin.
    + rewrite (deliver_perm ch). exact Hin.
Qed.

(** X1. [checkRadiusConcurrent] returns [true] exactly when some outcome is
    Access-Accept, and then with a nil error; it returns [(false, nil)]
    exactly when no outcome is Access-Accept and some outcome is
    Access-Reject.  In every other case the error is not nil. *)
Theorem verdict_characterised r net ch it u p :
  (fst (checkRadiusConcurrent r net ch it u p) = true
   <-> exists res, res ∈ serverOutcomes r net ch it u p /\
                   code res = CodeAccessAccept) /\
  (fst (checkRadiusConcurrent r net ch it u p) = true ->
   snd (checkRadiusConcurrent r net ch it u p) = None) /\
  (checkRadiusConcurrent r net ch it u p = (false, None)
   <-> (forall res, res ∈ serverOutcomes r net ch it u p ->
                    code res <> CodeAccessAccept) /\
       exists res, res ∈ serverOutcomes r net ch it u p /\
                   code res = CodeAccessReject).
Proof.
  split; [apply check_true_iff_accept|].
  unfold checkRadiusConcurrent, serverOutcomes.
  destruct (run_cases r net ch it u p) as [(e & ->)|(packet & _ & _ & ->)]; simpl.
  - split; [discriminate|]. split; [discriminate|].
    intros (_ & res & Hin & _). inversion Hin.
  - set (sent := sent_results r net packet).
    assert (Harr : forall res, res ∈ deliver ch sent <-> res ∈ sent).
    { intros res. rewrite (deliver_perm ch). reflexivity. }
    split.
    + unfold resolve. destruct (hasAccessAccept _); simpl; [reflexivity|].
      destruct (hasReject _); discriminate.
    + rewrite resolve_false_nil. split.
      * intros [Ha Hj]. split.
        -- intros res Hin Hc.
           assert (H : hasAccessAccept (collect (deliver ch sent)) = true).
           { apply collect_hasAccessAccept. exists res. split; [|exact Hc].
             apply Harr. exact Hin. }
           congruence.
        -- apply collect_hasReject in Hj as (res & Hin & Hc).
           exists res. split; [apply Harr; exact Hin|exact Hc].
      * intros [Hno (res & Hin & Hc)]. split.
        -- destruct (hasAccessAccept (collect (deliver ch sent))) eqn:Ha; [|reflexivity].
           apply collect_hasAccessAccept in Ha as (res' & Hin' & Hc').
           exfalso. apply (Hno res'); [apply Harr; exact Hin'|exact Hc'].
        -- apply collect_hasReject. exists res. split; [apply Harr; exact Hin|exact Hc].
Qed.

(** X2. With no server configured, or when the username or the password
    cannot be put into the packet, [checkRadiusConcurrent] returns [false]
    with the matching error and contacts no server; the password is not
    even tried once the username has failed. *)
Theorem no_exchange_without_request r net ch it u p :
  (Servers r = [] ->
   checkRadiusConcurrent_run r net ch it u p
   = ((false, Some (errors_New "no RADIUS servers configured")), mkTrace [] [])) /\
  (forall t,
     Servers r <> [] ->
     snd (UserName_SetString (radius_New CodeAccessRequest (Secret r)) u) = Some t ->
     checkRadiusConcurrent_run r net ch it u p
     = ((false, Some (fmt_Errorf "rfc2865: setting username string error: %w" [t])),
        mkTrace [] [])) /\
  (forall t,
     Servers r <> [] ->
     snd (UserName_SetString (radius_New CodeAccessRequest (Secret r)) u) = None ->
     snd (UserPassword_SetString
            (fst (UserName_SetString (radius_New CodeAccessRequest (Secret r)) u)) p)
     = Some t ->
     checkRadiusConcurrent_run r net ch it u p
     = ((false, Some (fmt_Errorf "rfc2865: setting password string error: %w" [t])),
        mkTrace [] [])).
Proof.
  unfold checkRadiusConcurrent_run, buildRequest.
  split; [intros ->; reflexivity|]. split.
  - intros t Hs Hu. destruct (Servers r); [contradiction|].
    destruct (UserName_SetString _ u) as [pk e]. simpl in Hu. subst e. reflexivity.
  - intros t Hs Hu Hp. destruct (Servers r); [contradiction|].
    destruct (UserName_SetString _ u) as [pk e]. simpl in Hu, Hp. subst e.
    destruct (UserPassword_SetString pk p) as [pk' e']. simpl in Hp. subst e'.
    reflexivity.
Qed.

(** X3. Once the packet is built, every configured address is contacted
    exactly once, in list order and with the parsed [Timeout] as deadline,
    an address configured twice being contacted twice; every goroutine
    sends one result labelled with its address, and a result that carries
    an error carries code 0. *)
Theorem one_exchange_per_server r net ch it u p packet :
  buildRequest (Secret r) u p = inl packet ->
  exchanges (snd (checkRadiusConcurrent_run r net ch it u p))
  = map (fun srv => (fst (ParseDuration (Timeout r)), srv)) (Servers r) /\
  server <$> serverOutcomes r net ch it u p = Servers r /\
  forall res e,
    res ∈ serverOutcomes r net ch it u p -> err res = Some e -> code res = 0.
Proof.
  intros Hb.
  assert (Hrun : checkRadiusConcurrent_run r net ch it u p
                 = match Servers r with
                   | [] => ((false, Some (errors_New "no RADIUS servers configured")),
                            mkTrace [] [])
                   | _ => (resolve it (collect (deliver ch (sent_results r net packet))),
                           mkTrace (map (fun srv => (fst (ParseDuration (Timeout r)), srv))
                                        (Servers r))
                                   (sent_results r net packet))
                   end).
  { unfold checkRadiusConcurrent_run. rewrite Hb. reflexivity. }
  unfold serverOutcomes. rewrite Hrun.
  destruct (Servers r) as [|s l] eqn:Hs.
  - simpl. repeat split. intros res e Hin. inversion Hin.
  - simpl. split; [reflexivity|]. split.
    + rewrite <- Hs. apply servers_sent.
    + intros res e Hin. unfold sent_results in Hin.
      apply list_elem_of_lookup in Hin as (i & Hi).
      rewrite list_lookup_imap in Hi.
      destruct (Servers r !! i) as [srv|]; [|discriminate].
      simpl in Hi. injection Hi as <-. unfold goroutine.
      destruct (net _ packet i srv); simpl; [discriminate|reflexivity].
Qed.

(** The map of the collector has one entry per address seen. *)
Lemma serverResults_dom_from l : forall st,
  dom (serverResults (collect_from st l))
  = dom (serverResults st) ∪ list_to_set (server <$> l).
Proof.
  induction l as [|x l IH]; intros st; simpl.
  - set_solver.
  - rewrite IH, serverResults_step, dom_insert_L. set_solver.
Qed.

(** X4. After the collector loop the [serverResults] map has exactly one
    entry for each distinct configured address: an address configured
    several times has one entry, so the case-3 message has one part per
    distinct address. *)
Theorem one_entry_per_address r net ch packet :
  dom (serverResults (collect (deliver ch (sent_results r net packet))))
  = list_to_set (Servers r) /\
  length (map_to_list
            (serverResults (collect (deliver ch (sent_results r net packet)))))
  = size (list_to_set (Servers r) : gset string).
Proof.
  assert (Hd : dom (serverResults (collect (deliver ch (sent_results r net packet))))
               = list_to_set (Servers r)).
  { unfold collect. fold (collect_from (mkCollected false false ∅)
                            (deliver ch (sent_results r net packet))).
    rewrite serverResults_dom_from. simpl. rewrite dom_empty_L.
    rewrite (deliver_perm ch), servers_sent. set_solver. }
  split; [exact Hd|].
  rewrite length_map_to_list, <- Hd. symmetry. apply size_dom.
Qed.

(** X5. The result that arrives last decides the map entry of its address,
    whatever arrived before, and leaves the entries of the other addresses
    as they were. *)
Theorem last_arrival_wins (l : list result) (res : result) :
  serverResults (collect (l ++ [res])) !! server res = Some (entry_of res) /\
  forall srv, srv <> server res ->
    serverResults (collect (l ++ [res])) !! srv = serverResults (collect l) !! srv.
Proof.
  unfold collect. rewrite fold_left_app. simpl.
  rewrite serverResults_step. split.
  - apply lookup_insert_eq.
  - intros srv Hne. apply lookup_insert_ne. congruence.
Qed.

(** X23. The iteration order of the map changes nothing but the order of
    the parts of the case-3 message: for two orders the returned boolean is
    the same, the error is nil in both calls or in neither, and two
    case-3 messages are the same opening text followed by the texts of the
    same map entries, arranged in two ways. *)
Theorem map_order_only_reorders_message r net ch it1 it2 u p :
  fst (checkRadiusConcurrent r net ch it1 u p)
  = fst (checkRadiusConcurrent r net ch it2 u p) /\
  (snd (checkRadiusConcurrent r net ch it1 u p) = None
   <-> snd (checkRadiusConcurrent r net ch it2 u p) = None) /\
  (forall msg1,
     snd (checkRadiusConcurrent r net ch it1 u p) = Some (fmt_Errorf msg1 []) ->
     exists msg2 l1 l2,
       snd (checkRadiusConcurrent r net ch it2 u p) = Some (fmt_Errorf msg2 []) /\
       l1 ≡ₚ l2 /\
       msg1 = "RADIUS authentication issues: "
              +:+ fold_right (fun kv rest => describe kv +:+ rest) EmptyString l1 /\
       msg2 = "RADIUS authentication issues: "
              +:+ fold_right (fun kv rest => describe kv +:+ rest) EmptyString l2).
Proof.
  unfold checkRadiusConcurrent.
  destruct (run_cases r net ch it1 u p) as [(e & He)|(packet & Hne & Hb & He)].
  - assert (He2 : checkRadiusConcurrent_run r net ch it2 u p
                  = ((false, Some e), mkTrace [] [])).
    { revert He. unfold checkRadiusConcurrent_run.
      destruct (Servers r); [trivial|].
      destruct (buildRequest (Secret r) u p); [discriminate|trivial]. }
    rewrite He, He2. simpl. split; [reflexivity|]. split; [tauto|].
    intros msg1 [= ->]. exfalso. revert He. unfold checkRadiusConcurrent_run.
    destruct (Servers r); [discriminate|].
    unfold buildRequest.
    destruct (UserName_SetString _ u) as [pk [t|]]; [discriminate|].
    destruct (UserPassword_SetString pk p) as [pk' [t|]]; discriminate.
  - assert (He2 : checkRadiusConcurrent_run r net ch it2 u p
                  = (resolve it2 (collect (deliver ch (sent_results r net packet))),
                     mkTrace (map (fun srv => (fst (ParseDuration (Timeout r)), srv))
                                  (Servers r))
                             (sent_results r net packet))).
    { unfold checkRadiusConcurrent_run, sent_results. rewrite Hb.
      destruct (Servers r); [contradiction|reflexivity]. }
    rewrite He, He2. simpl.
    set (st := collect (deliver ch (sent_results r net packet))).
    unfold resolve. destruct (hasAccessAccept st); simpl.
    { split; [reflexivity|]. split; [tauto|]. intros; discriminate. }
    destruct (hasReject st); simpl.
    { split; [reflexivity|]. split; [tauto|]. intros; discriminate. }
    split; [reflexivity|]. split; [split; discriminate|].
    intros msg1 [= <-].
    exists (errorMsg it2 (serverResults st)),
           (rangeOrder it1 (map_to_list (serverResults st))),
           (rangeOrder it2 (map_to_list (serverResults st))).
    split; [reflexivity|]. split.
    + rewrite (rangeOrder_perm it1), (rangeOrder_perm it2). reflexivity.
    + unfold errorMsg. rewrite !errorMsg_fold. split; reflexivity.
Qed.

End RadiusMore.

(** ** caddyfile.go: what Authenticate returns and writes *)

Section AuthenticateMore.
Context `{RL : RadiusLib} `{GT : GoTime}.

(** X6. [Authenticate] never returns an error, not even when
    [checkRadiusConcurrent] did.  When it grants access the user ID is the
    username of the request and nothing was written to the response; when
    it denies access the user is empty and the returned triple and the
    response are those of [promptForCredentials], whose last act is to set
    the WWW-Authenticate header. *)
Theorem Authenticate_returns r w ba clk net ch it :
  aerr (Authenticate r w ba clk net ch it) = None /\
  (authed (Authenticate r w ba clk net ch it) = true ->
   exists u p, ba = Some (u, p) /\
     user (Authenticate r w ba clk net ch it) = mkUser u /\
     writer (Authenticate r w ba clk net ch it) = w) /\
  (authed (Authenticate r w ba clk net ch it) = false ->
   user (Authenticate r w ba clk net ch it) = mkUser EmptyString /\
   exists w1,
     writer (Authenticate r w ba clk net ch it)
     = snd (promptForCredentials r w1 None) /\
     last (writer (Authenticate r w ba clk net ch it))
     = Some (Header_Set "WWW-Authenticate"
               ("Basic realm=" +:+ dquote
                +:+ (if String.eqb (Realm r) EmptyString then "restricted" else Realm r)
                +:+ dquote))).
Proof.
  assert (Hp : forall w1,
            last (snd (promptForCredentials r w1 None))
            = Some (Header_Set "WWW-Authenticate"
               ("Basic realm=" +:+ dquote
                +:+ (if String.eqb (Realm r) EmptyString then "restricted" else Realm r)
                +:+ dquote))).
  { intros w1. unfold promptForCredentials. simpl. apply last_snoc. }
  unfold Authenticate. destruct ba as [[u p]|].
  - destruct (lookup_cache r (now_Get clk) (CacheKey u p)) as [[|]|].
    + simpl. split; [reflexivity|]. split; [eauto|discriminate].
    + split; [reflexivity|]. split; [discriminate|]. intros _.
      split; [reflexivity|]. eexists. split; [reflexivity|apply Hp].
    + destruct (checkRadiusConcurrent_run r net ch it u p) as [[ok [e|]] tr]; simpl.
      * split; [reflexivity|]. split; [discriminate|]. intros _.
        split; [reflexivity|]. eexists. split; [reflexivity|apply Hp].
      * destruct (cache r) as [c|]; destruct ok; simpl;
          (split; [reflexivity|]); (split; [eauto || discriminate|]);
          try discriminate; intros _;
          (split; [reflexivity|]); eexists; (split; [reflexivity|apply Hp]).
  - split; [reflexivity|]. split; [discriminate|]. intros _.
    split; [reflexivity|]. eexists. split; [reflexivity|apply Hp].
Qed.

(** X7. What a denial writes.  With credentials in the request,
    [http.Error] is called first and the WWW-Authenticate header is set
    after it: with status 500 and the RADIUS error when
    [checkRadiusConcurrent] returned one, with status 401 and
    "Unauthorized" otherwise.  Without credentials only the header is
    set. *)
Theorem denial_writes r w ba clk net ch it :
  authed (Authenticate r w ba clk net ch it) = false ->
  writer (Authenticate r w ba clk net ch it)
  = match ba, invoked (Authenticate r w ba clk net ch it) with
    | None, _ => snd (promptForCredentials r w None)
    | Some _, Some ((_, Some e), _) =>
        snd (promptForCredentials r
               (w ++ [http_Error_radius e StatusInternalServerError]) None)
    | Some _, _ =>
        snd (promptForCredentials r
               (w ++ [http_Error "Unauthorized" StatusUnauthorized]) None)
    end.
Proof.
  unfold Authenticate. destruct ba as [[u p]|]; [|reflexivity].
  destruct (lookup_cache r (now_Get clk) (CacheKey u p)) as [[|]|].
  - discriminate.
  - reflexivity.
  - destruct (checkRadiusConcurrent_run r net ch it u p) as [[ok [e|]] tr]; simpl.
    + reflexivity.
    + destruct (cache r) as [c|]; destruct ok; simpl;
        try discriminate; reflexivity.
Qed.

(** X8. A call of [Authenticate] changes the cache for its own CacheKey at
    most: what a lookup of any other key finds is the same before and
    after the call. *)
Theorem other_keys_untouched r w u p clk net ch it now key :
  key <> CacheKey u p ->
  lookup_cache (self (Authenticate r w (Some (u, p)) clk net ch it)) now key
  = lookup_cache r now key.
Proof.
  intros Hne.
  destruct (lookup_cache r (now_Get clk) (CacheKey u p)) as [b|] eqn:Hl.
  - destruct (Authenticate_hit r w u p clk net ch it b Hl) as (_ & _ & _ & _ & -> & _).
    reflexivity.
  - destruct (Authenticate_miss r w u p clk net ch it Hl) as (_ & _ & _ & Hw).
    destruct (snd (fst (checkRadiusConcurrent_run r net ch it u p)));
      [destruct Hw as [_ ->]; reflexivity|].
    destruct (cache r) as [c|] eqn:Hc; [|destruct Hw as [_ ->]; reflexivity].
    destruct Hw as [_ ->]. unfold lookup_cache. rewrite Hc. simpl.
    unfold cache_Get, cache_SetDefault, cache_Set. simpl.
    rewrite lookup_insert_ne by congruence. reflexivity.
Qed.

(** On a miss access is granted exactly when the call of
    [checkRadiusConcurrent] returned [(true, nil)]. *)
Lemma authed_on_miss r w u p clk net ch it :
  lookup_cache r (now_Get clk) (CacheKey u p) = None ->
  authed (Authenticate r w (Some (u, p)) clk net ch it)
  = fst (checkRadiusConcurrent r net ch it u p).
Proof.
  intros Hl. destruct (Authenticate_miss r w u p clk net ch it Hl) as (_ & -> & _).
  unfold checkRadiusConcurrent.
  destruct (run_cases r net ch it u p) as [(e & ->)|(packet & _ & _ & ->)];
    [reflexivity|]. simpl.
  unfold resolve. destruct (hasAccessAccept _); [reflexivity|].
  destruct (hasReject _); reflexivity.
Qed.

(** X9. When the cache has nothing fresh for the credentials (or there is
    no cache), [Authenticate] grants access exactly when one of the
    servers contacted answered Access-Accept. *)
Theorem granted_on_miss_iff_accept r w u p clk net ch it :
  lookup_cache r (now_Get clk) (CacheKey u p) = None ->
  (authed (Authenticate r w (Some (u, p)) clk net ch it) = true
   <-> exists res, res ∈ serverOutcomes r net ch it u p /\
                   code res = CodeAccessAccept).
Proof.
  intros Hl. rewrite authed_on_miss by exact Hl. apply check_true_iff_accept.
Qed.

(** What a lookup finds after a call that stored [b] at [now_Set clk]. *)
Lemma lookup_after_store r c w u p clk net ch it b tr now :
  cache r = Some c ->
  0 < defaultExpiration c < 2 ^ 63 ->
  0 <= now_Set clk < 2 ^ 63 ->
  int64 now ->
  invoked (Authenticate r w (Some (u, p)) clk net ch it) = Some ((b, None), tr) ->
  lookup_cache (self (Authenticate r w (Some (u, p)) clk net ch it)) now (CacheKey u p)
  = if now_Set clk + defaultExpiration c <? now then None else Some b.
Proof.
  intros Hc Hd Ht Hn Hinv.
  pose proof (invoked_miss _ _ _ _ _ _ _ _ _ Hinv) as Hl.
  destruct (Authenticate_miss r w u p clk net ch it Hl) as (Hi & _ & _ & Hw).
  rewrite Hinv in Hi. injection Hi as Hrun. rewrite <- Hrun, Hc in Hw.
  cbn [fst snd] in Hw. destruct Hw as [_ ->].
  unfold lookup_cache. simpl. rewrite cache_Get_SetDefault.
  assert (H1 : (0 <? defaultExpiration c) = true) by (apply Z.ltb_lt; lia).
  rewrite H1. simpl. unfold int64 in Hn.
  destruct (Z.lt_ge_cases (now_Set clk + defaultExpiration c) (2 ^ 63)) as [Hs|Hb].
  - rewrite wrap64_int64 by (unfold int64; lia).
    assert (H2 : (0 <? now_Set clk + defaultExpiration c) = true)
      by (apply Z.ltb_lt; lia).
    rewrite H2. reflexivity.
  - assert (Hw : wrap64 (now_Set clk + defaultExpiration c) < 0)
      by (apply wrap64_above; lia).
    assert (H2 : (0 <? wrap64 (now_Set clk + defaultExpiration c)) = false)
      by (apply Z.ltb_ge; lia).
    rewrite H2. simpl.
    destruct (Z.ltb_spec (now_Set clk + defaultExpiration c) now); [lia|reflexivity].
Qed.

(** X10. The lifetime of a cached verdict is counted from the store and is
    not extended by hits: after a call that stored a verdict at time [t]
    with TTL [d], a second call served from the cache leaves the cache
    object as it is, and a third call later than [t + d] goes to the
    servers again. *)
Theorem hits_do_not_extend_ttl r c w u p clk net ch it b tr :
  cache r = Some c ->
  0 < defaultExpiration c < 2 ^ 63 ->
  0 <= now_Set clk < 2 ^ 63 ->
  invoked (Authenticate r w (Some (u, p)) clk net ch it) = Some ((b, None), tr) ->
  forall w1 clk1 net1 ch1 it1 w2 clk2 net2 ch2 it2,
    int64 (now_Get clk1) -> int64 (now_Get clk2) ->
    now_Get clk1 <= now_Set clk + defaultExpiration c ->
    now_Set clk + defaultExpiration c < now_Get clk2 ->
    self (Authenticate (self (Authenticate r w (Some (u, p)) clk net ch it))
            w1 (Some (u, p)) clk1 net1 ch1 it1)
    = self (Authenticate r w (Some (u, p)) clk net ch it) /\
    invoked
      (Authenticate
         (self (Authenticate (self (Authenticate r w (Some (u, p)) clk net ch it))
                  w1 (Some (u, p)) clk1 net1 ch1 it1))
         w2 (Some (u, p)) clk2 net2 ch2 it2)
    = Some (checkRadiusConcurrent_run r net2 ch2 it2 u p).
Proof.
  intros Hc Hd Ht Hinv w1 clk1 net1 ch1 it1 w2 clk2 net2 ch2 it2 Hn1 Hn2 Hin Hout.
  set (r1 := self (Authenticate r w (Some (u, p)) clk net ch it)).
  assert (Hl1 : lookup_cache r1 (now_Get clk1) (CacheKey u p) = Some b).
  { subst r1. rewrite (lookup_after_store r c w u p clk net ch it b tr) by assumption.
    destruct (Z.ltb_spec (now_Set clk + defaultExpiration c) (now_Get clk1));
      [lia|reflexivity]. }
  assert (Hl2 : lookup_cache r1 (now_Get clk2) (CacheKey u p) = None).
  { subst r1. rewrite (lookup_after_store r c w u p clk net ch it b tr) by assumption.
    destruct (Z.ltb_spec (now_Set clk + defaultExpiration c) (now_Get clk2));
      [reflexivity|lia]. }
  destruct (Authenticate_hit r1 w1 u p clk1 net1 ch1 it1 b Hl1) as (_ & _ & _ & _ & Hs & _).
  rewrite Hs. split; [reflexivity|].
  destruct (Authenticate_miss r1 w2 u p clk2 net2 ch2 it2 Hl2) as (Hi & _).
  rewrite Hi. f_equal.
  pose proof (invoked_miss _ _ _ _ _ _ _ _ _ Hinv) as Hl.
  destruct (Authenticate_miss r w u p clk net ch it Hl) as (Hi0 & _ & _ & Hw).
  rewrite Hinv in Hi0. injection Hi0 as Hrun. rewrite <- Hrun, Hc in Hw.
  cbn [fst snd] in Hw. destruct Hw as [_ Hself].
  subst r1. rewrite Hself. reflexivity.
Qed.

End AuthenticateMore.

(** ** caddyfile.go: Provision *)

Section ProvisionMore.
Context `{RL : RadiusLib} `{GT : GoTime} `{GN : GoNet}.

Lemma validateServers_out servers : forall valid out,
  snd (validateServers servers valid out)
  = (out ++ map (fun s => "[caddy-radius] skipped invalid RADIUS server: " +:+ s)
              (List.filter (fun s => negb (isValidServerAddr s)) servers))%list.
Proof.
  induction servers as [|s l IH]; intros valid out; simpl.
  - rewrite app_nil_r. reflexivity.
  - destruct (isValidServerAddr s); simpl; rewrite IH; [reflexivity|].
    rewrite <- app_assoc. reflexivity.
Qed.

Lemma filter_filter_same {A} (f : A -> bool) (l : list A) :
  List.filter f (List.filter f l) = List.filter f l.
Proof.
  induction l as [|x l IH]; simpl; [reflexivity|].
  destruct (f x) eqn:Hx; simpl; rewrite ?Hx, IH; reflexivity.
Qed.

Lemma filter_filter_negb {A} (f : A -> bool) (l : list A) :
  List.filter (fun x => negb (f x)) (List.filter f l) = [].
Proof.
  induction l as [|x l IH]; simpl; [reflexivity|].
  destruct (f x) eqn:Hx; simpl; rewrite ?Hx; simpl; exact IH.
Qed.

Lemma filter_partition_length {A} (f : A -> bool) (l : list A) :
  (length (List.filter f l) + length (List.filter (fun x => negb (f x)) l)
   = length l)%nat.
Proof.
  induction l as [|x l IH]; simpl; [reflexivity|].
  destruct (f x); simpl; lia.
Qed.

(** [Provision] once the two first tests are passed and the cache TTL
    parses: every field of the struct, the error and the lines printed. *)
Lemma Provision_validated r d :
  Servers r <> [] ->
  Secret r <> EmptyString ->
  ParseDuration (effective_CacheTTL r) = (d, None) ->
  Provision r
  = (mkHTTPRadiusAuth (List.filter isValidServerAddr (Servers r))
       (Secret r) (Realm r) (effective_Timeout r) (effective_CacheTTL r)
       (if 0 <? d then Some (cache_New d 1000000000) else None),
     match List.filter isValidServerAddr (Servers r) with
     | [] => Some (fmt_Errorf "no valid RADIUS servers remain after validation" [])
     | _ => None
     end,
     map (fun s => "[caddy-radius] skipped invalid RADIUS server: " +:+ s)
         (List.filter (fun s => negb (isValidServerAddr s)) (Servers r))).
Proof.
  intros Hs Hk Hp. unfold Provision, effective_CacheTTL, effective_Timeout in *.
  destruct (Servers r) as [|s0 l0] eqn:Hsr; [contradiction|].
  apply String.eqb_neq in Hk. rewrite Hk.
  set (r1 := if String.eqb (Timeout r) EmptyString then set_Timeout r "3s" else r).
  assert (H1 : Servers r1 = Servers r /\ Secret r1 = Secret r /\ Realm r1 = Realm r /\
               CacheTTL r1 = CacheTTL r /\ cache r1 = cache r /\
               Timeout r1 = (if String.eqb (Timeout r) EmptyString then "3s" else Timeout r)).
  { subst r1. destruct (String.eqb (Timeout r) EmptyString); simpl; repeat split; reflexivity. }
  destruct H1 as (Hs1 & Hk1 & Hr1 & Hc1 & Hca1 & Ht1). clearbody r1.
  set (r2 := if String.eqb (CacheTTL r1) EmptyString then set_CacheTTL r1 "0s" else r1).
  assert (H2 : Servers r2 = Servers r /\ Secret r2 = Secret r /\ Realm r2 = Realm r /\
               Timeout r2 = Timeout r1 /\
               CacheTTL r2 = (if String.eqb (CacheTTL r) EmptyString then "0s" else CacheTTL r)).
  { subst r2. rewrite Hc1. destruct (String.eqb (CacheTTL r) EmptyString); simpl;
      repeat split; assumption. }
  destruct H2 as (Hs2 & Hk2 & Hr2 & Ht2 & Hc2). clearbody r2.
  rewrite Hc2, Hp.
  set (r3 := if 0 <? d then set_cache r2 (Some (cache_New d 1000000000))
             else set_cache r2 None).
  assert (H3 : Servers r3 = Servers r /\ Secret r3 = Secret r /\ Realm r3 = Realm r /\
               Timeout r3 = Timeout r1 /\ CacheTTL r3 = CacheTTL r2 /\
               cache r3 = (if 0 <? d then Some (cache_New d 1000000000) else None)).
  { subst r3. destruct (0 <? d); simpl; repeat split; assumption. }
  destruct H3 as (Hs3 & Hk3 & Hr3 & Ht3 & Hc3 & Hcache3). clearbody r3.
  pose proof (validateServers_filter (Servers r3) [] []) as Hf.
  pose proof (validateServers_out (Servers r3) [] []) as Ho.
  destruct (validateServers (Servers r3) [] []) as [valid out].
  simpl in Hf, Ho. subst valid out. rewrite Hs3, Hsr.
  cbn [Servers set_Servers]. unfold set_Servers.
  rewrite Hk3, Hr3, Ht3, Hc3, Hcache3, Ht1, Hc2.
  destruct (List.filter isValidServerAddr (s0 :: l0)); reflexivity.
Qed.

(** X11. [Provision] succeeds exactly when there is a server, the secret
    is not empty, the cache TTL (or "0s" in its place when empty) parses
    and at least one address passes [isValidServerAddr]. *)
Theorem Provision_succeeds_iff r :
  snd (fst (Provision r)) = None
  <-> Servers r <> [] /\ Secret r <> EmptyString /\
      snd (ParseDuration (effective_CacheTTL r)) = None /\
      exists s, s ∈ Servers r /\ isValidServerAddr s = true.
Proof.
  destruct (Servers r) as [|s0 l0] eqn:Hs.
  { unfold Provision. rewrite Hs. simpl. split; [discriminate|].
    intros [H _]. contradiction. }
  destruct (String.eqb_spec (Secret r) EmptyString) as [Hk|Hk].
  { unfold Provision. rewrite Hs.
    destruct (String.eqb_spec (Secret r) EmptyString); [|contradiction].
    simpl. split; [discriminate|]. intros (_ & H & _). contradiction. }
  destruct (ParseDuration (effective_CacheTTL r)) as [d [e|]] eqn:Hp.
  - split; [|intros (_ & _ & H & _); discriminate].
    unfold Provision, effective_CacheTTL in *. rewrite Hs.
    apply String.eqb_neq in Hk. rewrite Hk.
    set (r1 := if String.eqb (Timeout r) EmptyString then set_Timeout r "3s" else r).
    assert (Hc1 : CacheTTL r1 = CacheTTL r).
    { subst r1. destruct (String.eqb (Timeout r) EmptyString); reflexivity. }
    clearbody r1.
    set (r2 := if String.eqb (CacheTTL r1) EmptyString then set_CacheTTL r1 "0s" else r1).
    assert (Hc2 : CacheTTL r2 = (if String.eqb (CacheTTL r) EmptyString then "0s"
                                 else CacheTTL r)).
    { subst r2. rewrite Hc1. destruct (String.eqb (CacheTTL r) EmptyString); simpl;
        congruence. }
    clearbody r2. rewrite Hc2, Hp. discriminate.
  - rewrite (Provision_validated r d); [|rewrite Hs; discriminate|exact Hk|exact Hp].
    rewrite Hs.
    remember (List.filter isValidServerAddr (s0 :: l0)) as fl eqn:Hfl.
    cbn [fst snd]. split.
    + intros Hf. split; [discriminate|]. split; [exact Hk|]. split; [reflexivity|].
      destruct fl as [|v vs]; [discriminate|].
      exists v. assert (Hin : In v (List.filter isValidServerAddr (s0 :: l0)))
        by (rewrite <- Hfl; left; reflexivity).
      apply filter_In in Hin as [Hin Hv]. split; [|exact Hv].
      apply list_elem_of_In. exact Hin.
    + intros (_ & _ & _ & s & Hin & Hv).
      destruct fl as [|v vs]; [|reflexivity].
      exfalso. assert (H : In s (List.filter isValidServerAddr (s0 :: l0))).
      { apply filter_In. split; [apply list_elem_of_In; exact Hin|exact Hv]. }
      rewrite <- Hfl in H. exact H.
Qed.

(** X12. A cache TTL that does not parse makes [Provision] fail with
    "invalid cache_ttl duration", after the defaults of [Timeout] and
    [CacheTTL] have been written into the struct and before anything
    else: the servers are not validated, the cache pointer is untouched
    and nothing is printed. *)
Theorem Provision_bad_cache_ttl r d e :
  Servers r <> [] ->
  Secret r <> EmptyString ->
  ParseDuration (effective_CacheTTL r) = (d, Some e) ->
  Provision r
  = (mkHTTPRadiusAuth (Servers r) (Secret r) (Realm r)
       (effective_Timeout r) (effective_CacheTTL r) (cache r),
     Some (fmt_Errorf "invalid cache_ttl duration: %v" [e]),
     []).
Proof.
  intros Hs Hk Hp. unfold Provision, effective_CacheTTL, effective_Timeout in *.
  destruct (Servers r) as [|s0 l0] eqn:Hsr; [contradiction|].
  apply String.eqb_neq in Hk. rewrite Hk.
  destruct r as [sv sc rl tm ttl ca]. simpl in *. subst sv.
  destruct (String.eqb tm EmptyString); simpl;
    destruct (String.eqb ttl EmptyString); simpl; rewrite Hp; reflexivity.
Qed.

(** X13. Past the cache TTL, [Provision] prints one line for each address
    it drops, in list order, and every configured address is either kept
    or reported. *)
Theorem Provision_reports_each_skipped r d :
  Servers r <> [] ->
  Secret r <> EmptyString ->
  ParseDuration (effective_CacheTTL r) = (d, None) ->
  snd (Provision r)
  = map (fun s => "[caddy-radius] skipped invalid RADIUS server: " +:+ s)
        (List.filter (fun s => negb (isValidServerAddr s)) (Servers r)) /\
  (length (Servers (fst (fst (Provision r)))) + length (snd (Provision r))
   = length (Servers r))%nat.
Proof.
  intros Hs Hk Hp. rewrite (Provision_validated r d Hs Hk Hp). simpl.
  split; [reflexivity|]. rewrite length_map. apply filter_partition_length.
Qed.

Lemma effective_CacheTTL_fixed r c :
  effective_CacheTTL
    (mkHTTPRadiusAuth (List.filter isValidServerAddr (Servers r)) (Secret r) (Realm r)
       (effective_Timeout r) (effective_CacheTTL r) c)
  = effective_CacheTTL r.
Proof.
  unfold effective_CacheTTL. simpl.
  destruct (String.eqb (CacheTTL r) EmptyString) eqn:He; [reflexivity|].
  rewrite He. reflexivity.
Qed.

Lemma effective_Timeout_fixed r c :
  effective_Timeout
    (mkHTTPRadiusAuth (List.filter isValidServerAddr (Servers r)) (Secret r) (Realm r)
       (effective_Timeout r) (effective_CacheTTL r) c)
  = effective_Timeout r.
Proof.
  unfold effective_Timeout. simpl.
  destruct (String.eqb (Timeout r) EmptyString) eqn:He; [reflexivity|].
  rewrite He. reflexivity.
Qed.

(** X14. Provisioning again a struct that [Provision] accepted succeeds,
    prints nothing and gives the same struct with a fresh, empty cache:
    whatever the cache held before is dropped. *)
Theorem Provision_again r r' out c :
  Provision r = (r', None, out) ->
  Provision (set_cache r' c) = (r', None, []).
Proof.
  intros H. destruct (Provision_success _ _ _ H) as (d & Hd & -> & Hne).
  set (r1 := set_cache _ c).
  assert (Hs1 : Servers r1 = List.filter isValidServerAddr (Servers r)) by reflexivity.
  assert (Hk : Secret r <> EmptyString).
  { intros Hk. revert H. unfold Provision.
    destruct (Servers r); [discriminate|]. rewrite Hk. discriminate. }
  rewrite (Provision_validated r1 d).
  - subst r1. unfold set_cache. simpl Servers. simpl Secret. simpl Realm.
    rewrite effective_Timeout_fixed, effective_CacheTTL_fixed.
    rewrite filter_filter_same, filter_filter_negb. simpl.
    destruct (List.filter isValidServerAddr (Servers r)); [contradiction|reflexivity].
  - rewrite Hs1. exact Hne.
  - exact Hk.
  - subst r1. unfold set_cache. simpl Servers. simpl Secret. simpl Realm.
    simpl Timeout. simpl CacheTTL.
    rewrite effective_CacheTTL_fixed. exact Hd.
Qed.

(** X15. After a successful [Provision] the cache is there exactly when
    the parsed TTL is positive (a negative TTL disables it like zero); a
    cache just created has that TTL as default expiration and is empty, so
    every lookup misses. *)
Theorem Provision_cache r r' out d :
  Provision r = (r', None, out) ->
  fst (ParseDuration (effective_CacheTTL r)) = d ->
  (d <= 0 -> cache r' = None) /\
  (0 < d ->
   exists c, cache r' = Some c /\ defaultExpiration c = d /\ items c = ∅ /\
             forall now key, lookup_cache r' now key = None).
Proof.
  intros H Hd. destruct (Provision_success _ _ _ H) as (d' & Hp & -> & _).
  rewrite Hp in Hd. simpl in Hd. subst d'. simpl. split.
  - intros Hle. destruct (Z.ltb_spec 0 d); [lia|reflexivity].
  - intros Hlt. destruct (Z.ltb_spec 0 d); [|lia].
    exists (cache_New d 1000000000). split; [reflexivity|].
    unfold cache_New. destruct (Z.eqb_spec d 0); [lia|]. simpl.
    split; [reflexivity|]. split; [reflexivity|].
    intros now key. reflexivity.
Qed.

(** X16. After a successful [Provision], [checkRadiusConcurrent] contacts
    only addresses of the original list that pass [isValidServerAddr],
    each with the deadline parsed from the timeout in force ("3s" when
    none was given). *)
Theorem provisioned_contacts_only_valid r r' out net ch it u p x :
  Provision r = (r', None, out) ->
  x ∈ exchanges (snd (checkRadiusConcurrent_run r' net ch it u p)) ->
  snd x ∈ Servers r /\ isValidServerAddr (snd x) = true /\
  fst x = fst (ParseDuration (effective_Timeout r)).
Proof.
  intros H Hin. destruct (Provision_success _ _ _ H) as (d & _ & Hr & _).
  destruct (run_cases r' net ch it u p) as [(e & He)|(packet & _ & _ & He)];
    rewrite He in Hin; simpl in Hin; [inversion Hin|].
  apply list_elem_of_In, in_map_iff in Hin as (srv & <- & Hsrv).
  rewrite Hr in Hsrv |- *. simpl in Hsrv |- *.
  apply filter_In in Hsrv as [Hsrv Hv].
  split; [apply list_elem_of_In; exact Hsrv|]. split; [exact Hv|reflexivity].
Qed.

End ProvisionMore.

(** ** caddyfile.go: parseCaddyfile and the two address checks *)

Section CaddyfileMore.
Context `{RL : RadiusLib} `{GT : GoTime} `{GN : GoNet}.

Lemma appendServers_fields args : forall ra ra',
  appendServers args ra = inr ra' ->
  Servers ra' = (Servers ra ++ args)%list /\ Secret ra' = Secret ra /\
  Realm ra' = Realm ra /\ Timeout ra' = Timeout ra /\
  CacheTTL ra' = CacheTTL ra /\ cache ra' = cache ra.
Proof.
  induction args as [|s args IH]; intros ra ra'; simpl.
  - intros [= <-]. rewrite app_nil_r. repeat split; reflexivity.
  - destruct (serverArgError s); [discriminate|].
    intros H. destruct (IH _ _ H) as (Hs & Hk & Hr & Ht & Hc & Hca).
    simpl in *. rewrite <- app_assoc in Hs. repeat split; assumption.
Qed.

Lemma directive_durations h ra h' ra' :
  directive h ra = inr (h', ra') -> durations_checked ra -> durations_checked ra'.
Proof.
  unfold directive, durations_checked.
  destruct (String.eqb (Val h) "servers").
  { destruct (RemainingArgs h) as [args h1].
    destruct args as [|a args]; [discriminate|].
    destruct (appendServers (a :: args) ra) as [e|ra1] eqn:Happ; [discriminate|].
    intros [= _ <-]. apply appendServers_fields in Happ as (_ & _ & _ & -> & -> & ->).
    trivial. }
  destruct (NextArg h) as [ok h1].
  destruct (String.eqb (Val h) "secret").
  { destruct ok; simpl; [|discriminate]. intros [= _ <-]. trivial. }
  destruct (String.eqb (Val h) "realm").
  { destruct ok; simpl; [|discriminate]. intros [= _ <-]. trivial. }
  destruct (String.eqb (Val h) "timeout").
  { destruct ok; simpl; [|discriminate].
    destruct (snd (ParseDuration (Val h1))) eqn:Hp; [discriminate|].
    intros [= _ <-]. simpl. intros (_ & Hc & Hca). repeat split; auto. }
  destruct (String.eqb (Val h) "cache_ttl").
  { destruct ok; simpl; [|discriminate].
    destruct (snd (ParseDuration (Val h1))) eqn:Hp; [discriminate|].
    intros [= _ <-]. simpl. intros (Ht & _ & Hca). repeat split; auto. }
  discriminate.
Qed.

Lemma block_loop_durations n : forall h ra ra',
  block_loop n h ra = Some (inr ra') ->
  durations_checked ra -> durations_checked ra'.
Proof.
  induction n as [|n IH]; intros h ra ra'; simpl; [discriminate|].
  destruct (NextBlock h 0) as [more h1]. destruct more; simpl.
  - destruct (directive h1 ra) as [e|[h2 ra2]] eqn:Hd; [discriminate|].
    intros Hl Hall. apply (IH _ _ _ Hl). eapply directive_durations; eassumption.
  - intros [= <-]. trivial.
Qed.

(** What [parseCaddyfile] returns when it returns a configuration. *)
Lemma parseCaddyfile_success h ra :
  parseCaddyfile h = Some (inr ra) ->
  Servers ra <> [] /\ Secret ra <> EmptyString /\
  Forall accepted_arg (Servers ra) /\ durations_checked ra.
Proof.
  unfold parseCaddyfile. destruct (Next h) as [ok h1].
  destruct (block_loop _ h1 zero_HTTPRadiusAuth) as [[e|ra1]|] eqn:Hl; try discriminate.
  destruct (Servers ra1) eqn:Hs; [discriminate|].
  destruct (String.eqb_spec (Secret ra1) EmptyString) as [Hk|Hk]; [discriminate|].
  intros [= <-]. rewrite Hs. split; [discriminate|]. split; [exact Hk|]. split.
  - rewrite <- Hs. eapply block_loop_accepted; [exact Hl|]. constructor.
  - eapply block_loop_durations; [exact Hl|].
    unfold durations_checked. simpl. auto.
Qed.

(** X17. A configuration [parseCaddyfile] returns has at least one server
    and a secret, its timeout and its cache TTL are each either absent or a
    duration that parses, and its cache pointer is nil. *)
Theorem parseCaddyfile_result_checked h ra :
  parseCaddyfile h = Some (inr ra) ->
  Servers ra <> [] /\ Secret ra <> EmptyString /\
  (Timeout ra = EmptyString \/ snd (ParseDuration (Timeout ra)) = None) /\
  (CacheTTL ra = EmptyString \/ snd (ParseDuration (CacheTTL ra)) = None) /\
  cache ra = None.
Proof.
  intros H. destruct (parseCaddyfile_success h ra H) as (Hs & Hk & _ & Hd).
  split; [exact Hs|]. split; [exact Hk|]. exact Hd.
Qed.

(** The two address checks compared. *)
Lemma accepted_arg_valid s :
  serverArgError s = None ->
  isValidServerAddr s
  = negb (is_nil (ParseIP (fst (fst (SplitHostPort s))))
          && Contains (fst (fst (SplitHostPort s))) " ").
Proof.
  unfold serverArgError, isValidServerAddr.
  destruct (Contains s ":"); simpl; [|discriminate].
  destruct (SplitHostPort s) as [[host port] e]. simpl.
  destruct (negb (is_nil e) || String.eqb host EmptyString
            || String.eqb port EmptyString); [discriminate|].
  intros _. destruct (is_nil (ParseIP host) && Contains host " "); reflexivity.
Qed.

(** X18. The check of the Caddyfile (lines 43-49) and
    [isValidServerAddr] differ in two ways only: an address the Caddyfile
    check accepts is refused by [isValidServerAddr] exactly when its host
    is not an IP address and contains a space, and an address
    [isValidServerAddr] accepts passes the Caddyfile check as soon as it
    contains a colon. *)
Theorem address_checks_compared s :
  (serverArgError s = None ->
   (isValidServerAddr s = false
    <-> ParseIP (fst (fst (SplitHostPort s))) = None /\
        Contains (fst (fst (SplitHostPort s))) " " = true)) /\
  (isValidServerAddr s = true -> Contains s ":" = true ->
   serverArgError s = None).
Proof.
  split.
  - intros Ha. rewrite (accepted_arg_valid s Ha).
    destruct (ParseIP (fst (fst (SplitHostPort s)))) as [ip|]; simpl.
    + split; [discriminate|]. intros [H _]. discriminate.
    + destruct (Contains _ " "); simpl; split; try tauto; try discriminate.
      intros [_ H]. discriminate.
  - unfold serverArgError, isValidServerAddr. intros Hv Hc. rewrite Hc. simpl.
    destruct (SplitHostPort s) as [[host port] e].
    destruct (negb (is_nil e) || String.eqb host EmptyString
              || String.eqb port EmptyString); [discriminate|reflexivity].
Qed.

Lemma filter_all_true {A} (f : A -> bool) (l : list A) :
  Forall (fun x => f x = true) l ->
  List.filter f l = l /\ List.filter (fun x => negb (f x)) l = [].
Proof.
  induction 1 as [|x l Hx _ [IH1 IH2]]; simpl; [split; reflexivity|].
  rewrite Hx. simpl. rewrite IH1, IH2. split; reflexivity.
Qed.

(** X19. From Caddyfile to [Provision]: when "0s" parses and no host of
    the configuration contains a space, [Provision] accepts what
    [parseCaddyfile] returned, keeps every server in its place, prints
    nothing and fills the two defaults in. *)
Theorem parsed_then_provisioned h ra :
  parseCaddyfile h = Some (inr ra) ->
  snd (ParseDuration "0s") = None ->
  (forall s, s ∈ Servers ra ->
     Contains (fst (fst (SplitHostPort s))) " " = false) ->
  exists c,
    Provision ra
    = (mkHTTPRadiusAuth (Servers ra) (Secret ra) (Realm ra)
         (effective_Timeout ra) (effective_CacheTTL ra) c,
       None, []) /\
    (c = None <-> fst (ParseDuration (effective_CacheTTL ra)) <= 0).
Proof.
  intros H H0 Hsp.
  destruct (parseCaddyfile_success h ra H) as (Hs & Hk & Hacc & (_ & Httl & _)).
  assert (Hp : snd (ParseDuration (effective_CacheTTL ra)) = None).
  { unfold effective_CacheTTL.
    destruct (String.eqb_spec (CacheTTL ra) EmptyString) as [He|He]; [exact H0|].
    destruct Httl as [Hn|Hn]; [contradiction|exact Hn]. }
  destruct (ParseDuration (effective_CacheTTL ra)) as [d e] eqn:Hpd.
  simpl in Hp. subst e.
  assert (Hall : Forall (fun s => isValidServerAddr s = true) (Servers ra)).
  { apply Forall_forall. intros s Hin.
    rewrite Forall_forall in Hacc. specialize (Hacc s Hin).
    rewrite (accepted_arg_valid s Hacc), (Hsp s Hin), andb_false_r. reflexivity. }
  destruct (filter_all_true _ _ Hall) as [Hf1 Hf2].
  exists (if 0 <? d then Some (cache_New d 1000000000) else None). split.
  - rewrite (Provision_validated ra d Hs Hk Hpd), Hf1, Hf2.
    destruct (Servers ra); [contradiction|reflexivity].
  - simpl. destruct (Z.ltb_spec 0 d); split; try discriminate; try lia; reflexivity.
Qed.

(** The timeout [Provision] leaves in the struct, past its two first
    tests. *)
Lemma Provision_Timeout_after r :
  Servers r <> [] -> Secret r <> EmptyString ->
  Timeout (fst (fst (Provision r))) = effective_Timeout r.
Proof.
  intros Hs Hk.
  destruct (ParseDuration (effective_CacheTTL r)) as [d [e|]] eqn:Hp.
  - unfold Provision, effective_CacheTTL, effective_Timeout in *.
    destruct (Servers r) as [|s0 l0] eqn:Hsr; [contradiction|].
    apply String.eqb_neq in Hk. rewrite Hk.
    destruct r as [sv sc rl tm ttl ca]. simpl in *.
    destruct (String.eqb tm EmptyString); simpl;
      destruct (String.eqb ttl EmptyString); simpl; rewrite Hp; reflexivity.
  - rewrite (Provision_validated r d Hs Hk Hp). reflexivity.
Qed.

(** X24. A configuration that came through [parseCaddyfile] never reaches
    [checkRadiusConcurrent] with a timeout that does not parse: whatever
    [Provision] returns for it, the timeout left in the struct is the one
    of the Caddyfile, checked there, or "3s" (as long as "3s" parses). *)
Theorem caddyfile_timeout_parses h ra :
  parseCaddyfile h = Some (inr ra) ->
  snd (ParseDuration "3s") = None ->
  Timeout (fst (fst (Provision ra))) = effective_Timeout ra /\
  snd (ParseDuration (Timeout (fst (fst (Provision ra))))) = None.
Proof.
  intros H H3.
  destruct (parseCaddyfile_success h ra H) as (Hs & Hk & _ & (Ht & _ & _)).
  rewrite (Provision_Timeout_after ra Hs Hk). split; [reflexivity|].
  unfold effective_Timeout.
  destruct (String.eqb_spec (Timeout ra) EmptyString) as [He|He]; [exact H3|].
  destruct Ht as [Hn|Hn]; [contradiction|exact Hn].
Qed.

(** X20. A [servers] directive adds its arguments, in order, behind the
    addresses of earlier [servers] directives and changes no other field;
    it needs at least one argument. *)
Theorem servers_directive_appends h ra h' ra' :
  String.eqb (Val h) "servers" = true ->
  directive h ra = inr (h', ra') ->
  fst (RemainingArgs h) <> [] /\
  Servers ra' = (Servers ra ++ fst (RemainingArgs h))%list /\
  Secret ra' = Secret ra /\ Realm ra' = Realm ra /\
  Timeout ra' = Timeout ra /\ CacheTTL ra' = CacheTTL ra.
Proof.
  intros Hv. unfold directive. rewrite Hv.
  destruct (RemainingArgs h) as [args h1]. simpl.
  destruct args as [|a args]; [discriminate|].
  destruct (appendServers (a :: args) ra) as [e|ra1] eqn:Happ; [discriminate|].
  intros [= _ <-]. apply appendServers_fields in Happ as (Hs & Hk & Hr & Ht & Hc & _).
  split; [discriminate|]. repeat split; assumption.
Qed.

(** X21. A directive without a block -- nothing after its name, or the next
    token on a new line, or not an opening brace -- is refused: no server
    was defined. *)
Theorem no_block_no_servers toks :
  match toks with
  | t :: t2 :: _ => isNextOnNewLine t t2 = true \/ Text t2 <> "{"
  | _ => True
  end ->
  parseCaddyfile (NewDispenser toks)
  = Some (inl (fmt_Errorf "at least one RADIUS server must be defined" [])).
Proof.
  destruct toks as [|t [|t2 rest]]; intros H.
  - reflexivity.
  - reflexivity.
  - assert (Hlen : len_tokens (mkDispenser (t :: t2 :: rest) 0 0) - 1 <=? 0 = false).
    { apply Z.leb_gt. unfold len_tokens. simpl length. lia. }
    assert (Hnext : Next (NewDispenser (t :: t2 :: rest))
                    = (true, mkDispenser (t :: t2 :: rest) 0 0)).
    { unfold Next, NewDispenser, len_tokens, set_cursor. simpl tokens. simpl cursor.
      simpl nesting.
      destruct (Z.ltb_spec (-1) (Z.of_nat (length (t :: t2 :: rest)) - 1));
        [reflexivity|]. simpl length in *. lia. }
    assert (Hnb : fst (NextBlock (mkDispenser (t :: t2 :: rest) 0 0) 0) = false).
    { unfold NextBlock. simpl nesting. simpl (0 <? 0).
      unfold nextOnSameLine. simpl cursor. simpl (0 <? 0). rewrite Hlen.
      change (token_at (mkDispenser (t :: t2 :: rest) 0 0) 0) with (Some t).
      change (token_at (mkDispenser (t :: t2 :: rest) 0 0) (0 + 1)) with (Some t2).
      cbv beta iota.
      destruct (isNextOnNewLine t t2) eqn:Hnl; simpl; [reflexivity|].
      destruct H as [H|H]; [discriminate|].
      change (Val (set_cursor (mkDispenser (t :: t2 :: rest) 0 0) (0 + 1)))
        with (Text t2).
      destruct (String.eqb_spec (Text t2) "{"); [contradiction|reflexivity]. }
    unfold parseCaddyfile. rewrite Hnext.
    change (block_loop (S (length (tokens (mkDispenser (t :: t2 :: rest) 0 0))))
              (mkDispenser (t :: t2 :: rest) 0 0) zero_HTTPRadiusAuth)
      with (let (more, h) := NextBlock (mkDispenser (t :: t2 :: rest) 0 0) 0 in
            if negb more then Some (inr zero_HTTPRadiusAuth)
            else match directive h zero_HTTPRadiusAuth with
                 | inl e => Some (inl e)
                 | inr (h, ra) =>
                     block_loop (length (tokens (mkDispenser (t :: t2 :: rest) 0 0)))
                                h ra
                 end).
    destruct (NextBlock (mkDispenser (t :: t2 :: rest) 0 0) 0) as [more h1].
    simpl in Hnb. subst more. reflexivity.
Qed.

End CaddyfileMore.

(** ** The CacheKey and the credentials it comes from *)

(** X22. The CacheKey of a pair whose username has no colon splits back
    into that pair at its first colon: the key holds exactly what the
    Basic-Auth header held. *)
Theorem CacheKey_splits_back u : forall p,
  Contains u ":" = false -> Cut_colon (CacheKey u p) = Some (u, p).
Proof.
  induction u as [|c u IH]; intros p Hc.
  - reflexivity.
  - apply Contains_colon_cons in Hc as [Hne Hc].
    rewrite CacheKey_cons. simpl.
    destruct (Ascii.eqb_spec c ":") as [Heq|_]; [contradiction|].
    rewrite (IH p Hc). reflexivity.
Qed.

(** * Worked examples

    The theorems above, run on the library instances of [GoLib] and the
    inputs of [Ex]. *)

Import GoLib.

(** A server that times out first and one that accepts, delivered in
    reverse order. *)
Lemma accept_from_any_server_witness :
  checkRadiusConcurrent Ex.two_servers (Ex.timeout_then CodeAccessAccept)
    Ex.lifo Ex.in_order "alice" "wonderland" = (true, None).
Proof.
  apply accept_from_any_server.
  exists (goroutine (Ex.timeout_then CodeAccessAccept)
            (fst (ParseDuration (Timeout Ex.two_servers)))
            (mkPacket 1 "sharedsecret" (Some "alice") (Some "wonderland"))
            1 "10.0.0.2:1812").
  split; [|reflexivity].
  apply (outcome_at_position Ex.two_servers); reflexivity.
Defined.

Lemma reject_without_accept_witness :
  checkRadiusConcurrent Ex.two_servers (Ex.timeout_then CodeAccessReject)
    Ex.fifo Ex.in_order "alice" "wonderland" = (false, None).
Proof.
  apply reject_without_accept.
  - intros res Hin. vm_compute in Hin.
    repeat (apply elem_of_cons in Hin as [->|Hin]); [discriminate..|].
    inversion Hin.
  - exists (mkResult CodeAccessReject None "10.0.0.2:1812").
    split; [|reflexivity]. vm_compute. right. left.
Defined.


(** The message of that call. *)
Example all_down_message :
  checkRadiusConcurrent Ex.two_servers Ex.all_down Ex.lifo Ex.in_order
    "alice" "wonderland"
  = (false,
     Some (fmt_Errorf
       ("RADIUS authentication issues: "
        +:+ "10.0.0.1:1812 error: connection refused; "
        +:+ "10.0.0.2:1812 error: context deadline exceeded; ") [])).
Proof. vm_compute. reflexivity. Qed.

Lemma arrival_order_independent_witness :
  checkRadiusConcurrent Ex.two_servers Ex.all_down Ex.fifo Ex.in_order
    "alice" "wonderland"
  = checkRadiusConcurrent Ex.two_servers Ex.all_down Ex.lifo Ex.in_order
    "alice" "wonderland".
Proof.
  apply arrival_order_independent.
  apply (bool_decide_unpack _). vm_compute. exact I.
Defined.

(** One address configured twice; the first dispatch is answered with
    Access-Challenge, the second times out.  Which of the two the map
    keeps, and so the message, depends on which arrives last. *)
Lemma arrival_order_changes_message :
  checkRadiusConcurrent Ex.same_twice Ex.challenge_then_timeout Ex.fifo Ex.in_order
    "alice" "wonderland"
  = (false, Some (fmt_Errorf
      "RADIUS authentication issues: 10.0.0.1:1812 error: context deadline exceeded; " []))
  /\
  checkRadiusConcurrent Ex.same_twice Ex.challenge_then_timeout Ex.lifo Ex.in_order
    "alice" "wonderland"
  = (false, Some (fmt_Errorf
      "RADIUS authentication issues: 10.0.0.1:1812 returned unknown code: Access-Challenge; " []))
  /\
  checkRadiusConcurrent Ex.same_twice Ex.challenge_then_timeout Ex.fifo Ex.in_order
    "alice" "wonderland"
  <> checkRadiusConcurrent Ex.same_twice Ex.challenge_then_timeout Ex.lifo Ex.in_order
    "alice" "wonderland".
Proof.
  split; [vm_compute; reflexivity|]. split; [vm_compute; reflexivity|].
  intros H. vm_compute in H. discriminate H.
Qed.

(** Every server down at the first call: [checkRadiusConcurrent] returns
    an error, nothing is stored and the cache object is as it was. *)
Lemma cache_written_iff_resolved_witness :
  stores (Authenticate Ex.cached [] (Some ("alice", "wonderland")) Ex.first_call
            Ex.all_down Ex.fifo Ex.in_order) = []
  /\ self (Authenticate Ex.cached [] (Some ("alice", "wonderland")) Ex.first_call
            Ex.all_down Ex.fifo Ex.in_order) = Ex.cached.
Proof.
  destruct (cache_written_iff_resolved Ex.cached Ex.empty_cache []
              (Some ("alice", "wonderland")) Ex.first_call
              Ex.all_down Ex.fifo Ex.in_order eq_refl) as (_ & _ & Herr).
  edestruct Herr as (Hs & Hself & _).
  - vm_compute. reflexivity.
  - split; assumption.
Defined.

(** Accepted at noon; asked again half a minute later, with every server
    down: served from the cache. *)
Lemma cached_verdict_served_witness :
  authed (Authenticate
            (self (Authenticate Ex.cached [] (Some ("alice", "wonderland"))
                     Ex.first_call (Ex.timeout_then CodeAccessAccept)
                     Ex.fifo Ex.in_order))
            [] (Some ("alice", "wonderland")) Ex.half_minute_later
            Ex.all_down Ex.lifo Ex.in_order) = true
  /\
  invoked (Authenticate
            (self (Authenticate Ex.cached [] (Some ("alice", "wonderland"))
                     Ex.first_call (Ex.timeout_then CodeAccessAccept)
                     Ex.fifo Ex.in_order))
            [] (Some ("alice", "wonderland")) Ex.after_ttl
            Ex.all_down Ex.lifo Ex.in_order)
  = Some (checkRadiusConcurrent_run Ex.cached Ex.all_down Ex.lifo Ex.in_order
            "alice" "wonderland").
Proof.
  assert (H0 : cache Ex.cached = Some Ex.empty_cache) by reflexivity.
  assert (H1 : 0 < defaultExpiration Ex.empty_cache < 2 ^ 63)
    by (vm_compute; split; reflexivity).
  assert (H2 : 0 <= now_Set Ex.first_call < 2 ^ 63)
    by (vm_compute; split; [discriminate|reflexivity]).
  assert (H3 : invoked (Authenticate Ex.cached [] (Some ("alice", "wonderland"))
                          Ex.first_call (Ex.timeout_then CodeAccessAccept)
                          Ex.fifo Ex.in_order)
               = Some ((true, None),
                       snd (checkRadiusConcurrent_run Ex.cached
                              (Ex.timeout_then CodeAccessAccept) Ex.fifo Ex.in_order
                              "alice" "wonderland")))
    by (vm_compute; reflexivity).
  split.
  - apply (cached_verdict_served _ _ _ _ _ _ _ _ _ _ _ H0 H1 H2 H3
             [] [] Ex.half_minute_later Ex.all_down Ex.lifo Ex.in_order).
    + vm_compute. split; [discriminate|reflexivity].
    + constructor.
    + vm_compute. discriminate.
  - apply (cached_verdict_served _ _ _ _ _ _ _ _ _ _ _ H0 H1 H2 H3
             [] [] Ex.after_ttl Ex.all_down Ex.lifo Ex.in_order).
    + vm_compute. split; [discriminate|reflexivity].
    + constructor.
    + vm_compute. reflexivity.
Defined.

(** No [cache_ttl] in the configuration: "0s" is filled in, the cache
    pointer stays nil, and a second call right after an accepted one goes
    to the servers again. *)
Lemma zero_ttl_no_memoization_witness :
  cache (fst (fst (Provision Ex.mixed))) = None /\
  invoked
    (Authenticate
       (self (Authenticate (fst (fst (Provision Ex.mixed))) []
                (Some ("alice", "wonderland")) Ex.first_call
                (Ex.timeout_then CodeAccessAccept) Ex.fifo Ex.in_order))
       [] (Some ("alice", "wonderland")) Ex.half_minute_later
       Ex.all_down Ex.fifo Ex.in_order)
  = Some (checkRadiusConcurrent_run (fst (fst (Provision Ex.mixed)))
            Ex.all_down Ex.fifo Ex.in_order "alice" "wonderland").
Proof.
  destruct (zero_ttl_no_memoization Ex.mixed (fst (fst (Provision Ex.mixed)))
              (snd (Provision Ex.mixed)))
    as (Hnil & _ & Hcalls).
  - vm_compute. reflexivity.
  - vm_compute. reflexivity.
  - split; [exact Hnil|].
    apply (Hcalls [] [] "alice" "wonderland" Ex.first_call Ex.half_minute_later
             (Ex.timeout_then CodeAccessAccept) Ex.all_down
             Ex.fifo Ex.fifo Ex.in_order Ex.in_order).
Defined.



(** The dispenser on the [servers] token of [Ex.caddyfile_bad_server],
    inside the block: the directive is refused. *)
Lemma unparseable_address_at_setup_witness :
  exists e,
    directive
      (mkDispenser Ex.caddyfile_bad_server 2 1) zero_HTTPRadiusAuth = inl e.
Proof.
  apply (proj1 (proj2 unparseable_address_at_setup)).
  - reflexivity.
  - exists "bogus". split; [vm_compute; right; left|vm_compute; discriminate].
Defined.

(** And so is the whole Caddyfile. *)
Example caddyfile_bad_server_refused :
  parseCaddyfile (NewDispenser Ex.caddyfile_bad_server)
  = Some (inl (h_Errf "invalid RADIUS server address: %s (must include port)"
                 ["bogus"])).
Proof. vm_compute. reflexivity. Qed.

(** [Provision] on a list with an address that has no port: no error, the
    address is dropped and a line is printed. *)
Lemma Provision_skips_unparseable :
  isValidServerAddr "bogus" = false /\
  Provision Ex.mixed
  = (mkHTTPRadiusAuth ["10.0.0.1:1812"] "sharedsecret" EmptyString "3s" "0s" None,
     None,
     ["[caddy-radius] skipped invalid RADIUS server: bogus"]).
Proof. split; vm_compute; reflexivity. Qed.

(** "soon" is not a duration: [Provision] accepts it, and the exchanges
    get a zero deadline. *)
Lemma unparseable_timeout_unchecked_witness :
  snd (fst (Provision Ex.bad_timeout)) = None /\
  Timeout (fst (fst (Provision Ex.bad_timeout))) = "soon" /\
  exchanges (snd (checkRadiusConcurrent_run Ex.bad_timeout Ex.all_down
                    Ex.fifo Ex.in_order "alice" "wonderland"))
  = [(0, "10.0.0.1:1812"); (0, "10.0.0.2:1812")].
Proof.
  assert (H1 : Timeout Ex.bad_timeout <> EmptyString) by discriminate.
  assert (H2 : ParseDuration (Timeout Ex.bad_timeout)
               = (0, Some ("time: invalid duration " +:+ dquote +:+ "soon" +:+ dquote)))
    by (vm_compute; reflexivity).
  destruct (unparseable_timeout_unchecked Ex.bad_timeout _ _ H1 H2)
    as (Hkeep & _ & _ & Hrun).
  split; [vm_compute; reflexivity|]. split.
  - apply (Hkeep _ (snd (fst (Provision Ex.bad_timeout))) (snd (Provision Ex.bad_timeout))).
    vm_compute. reflexivity.
  - destruct (Hrun Ex.all_down Ex.fifo Ex.in_order "alice" "wonderland") as [_ Heq].
    rewrite (Heq (mkPacket 1 "sharedsecret" (Some "alice") (Some "wonderland")));
      [reflexivity|discriminate|reflexivity].
Defined.

(** ** Examples for the further properties *)

Lemma one_exchange_per_server_witness :
  exchanges (snd (checkRadiusConcurrent_run Ex.same_twice Ex.challenge_then_timeout
                    Ex.lifo Ex.in_order "alice" "wonderland"))
  = [(3000000000, "10.0.0.1:1812"); (3000000000, "10.0.0.1:1812")].
Proof.
  exact (proj1 (one_exchange_per_server Ex.same_twice Ex.challenge_then_timeout
                  Ex.lifo Ex.in_order "alice" "wonderland"
                  (mkPacket 1 "sharedsecret" (Some "alice") (Some "wonderland"))
                  eq_refl)).
Defined.

(** Every server down: status 500 with the RADIUS error, then the
    challenge header. *)
Lemma denial_writes_witness :
  writer (Authenticate Ex.cached [] (Some ("alice", "wonderland")) Ex.first_call
            Ex.all_down Ex.fifo Ex.in_order)
  = [http_Error_radius
       (fmt_Errorf
          ("RADIUS authentication issues: "
           +:+ "10.0.0.1:1812 error: connection refused; "
           +:+ "10.0.0.2:1812 error: context deadline exceeded; ") [])
       500;
     Header_Set "WWW-Authenticate"
       ("Basic realm=" +:+ dquote +:+ "Restricted Area" +:+ dquote)].
Proof.
  rewrite (denial_writes Ex.cached [] (Some ("alice", "wonderland")) Ex.first_call
             Ex.all_down Ex.fifo Ex.in_order).
  - vm_compute. reflexivity.
  - vm_compute. reflexivity.
Defined.

Lemma other_keys_untouched_witness :
  lookup_cache
    (self (Authenticate Ex.cached [] (Some ("alice", "wonderland")) Ex.first_call
             (Ex.timeout_then CodeAccessAccept) Ex.fifo Ex.in_order))
    Ex.noon "bob:builder"
  = lookup_cache Ex.cached Ex.noon "bob:builder".
Proof.
  apply other_keys_untouched. vm_compute. discriminate.
Defined.

Lemma granted_on_miss_iff_accept_witness :
  authed (Authenticate Ex.cached [] (Some ("alice", "wonderland")) Ex.first_call
            (Ex.timeout_then CodeAccessAccept) Ex.fifo Ex.in_order) = true
  <-> exists res,
        res ∈ serverOutcomes Ex.cached (Ex.timeout_then CodeAccessAccept)
                Ex.fifo Ex.in_order "alice" "wonderland" /\
        code res = CodeAccessAccept.
Proof.
  apply granted_on_miss_iff_accept. vm_compute. reflexivity.
Defined.

(** Accepted and stored at noon + 2 s; served from the cache 30 s later;
    asked again 61 s after the store: the servers are contacted again. *)
Lemma hits_do_not_extend_ttl_witness :
  invoked
    (Authenticate
       (self (Authenticate
                (self (Authenticate Ex.cached [] (Some ("alice", "wonderland"))
                         Ex.first_call (Ex.timeout_then CodeAccessAccept)
                         Ex.fifo Ex.in_order))
                [] (Some ("alice", "wonderland")) Ex.half_minute_later
                Ex.all_down Ex.fifo Ex.in_order))
       [] (Some ("alice", "wonderland")) Ex.after_ttl Ex.all_down Ex.fifo Ex.in_order)
  = Some (checkRadiusConcurrent_run Ex.cached Ex.all_down Ex.fifo Ex.in_order
            "alice" "wonderland").
Proof.
  apply (hits_do_not_extend_ttl Ex.cached Ex.empty_cache [] "alice" "wonderland"
           Ex.first_call (Ex.timeout_then CodeAccessAccept) Ex.fifo Ex.in_order true
           (snd (checkRadiusConcurrent_run Ex.cached (Ex.timeout_then CodeAccessAccept)
                   Ex.fifo Ex.in_order "alice" "wonderland"))).
  - reflexivity.
  - vm_compute. split; reflexivity.
  - vm_compute. split; [discriminate|reflexivity].
  - vm_compute. reflexivity.
  - vm_compute. split; [discriminate|reflexivity].
  - vm_compute. split; [discriminate|reflexivity].
  - vm_compute. discriminate.
  - vm_compute. reflexivity.
Defined.

(** "forever" is not a duration. *)
Lemma Provision_bad_cache_ttl_witness :
  Provision Ex.bad_ttl
  = (mkHTTPRadiusAuth ["10.0.0.1:1812"; "bogus"] "sharedsecret" EmptyString
       "3s" "forever" None,
     Some (fmt_Errorf "invalid cache_ttl duration: %v"
             ["time: invalid duration " +:+ dquote +:+ "forever" +:+ dquote]),
     []).
Proof.
  apply (Provision_bad_cache_ttl Ex.bad_ttl 0).
  - discriminate.
  - discriminate.
  - vm_compute. reflexivity.
Defined.

Lemma Provision_reports_each_skipped_witness :
  snd (Provision Ex.mixed)
  = ["[caddy-radius] skipped invalid RADIUS server: bogus"].
Proof.
  rewrite (proj1 (Provision_reports_each_skipped Ex.mixed 0
                    ltac:(discriminate) ltac:(discriminate) eq_refl)).
  vm_compute. reflexivity.
Defined.

(** Provisioning again, with verdicts in the cache: they are gone. *)
Lemma Provision_again_witness :
  Provision
    (set_cache (fst (fst (Provision Ex.two_servers)))
       (cache (self (Authenticate Ex.cached [] (Some ("alice", "wonderland"))
                       Ex.first_call (Ex.timeout_then CodeAccessAccept)
                       Ex.fifo Ex.in_order))))
  = (fst (fst (Provision Ex.two_servers)), None, []).
Proof.
  apply (Provision_again Ex.two_servers _ (snd (Provision Ex.two_servers))).
  vm_compute. reflexivity.
Defined.

Lemma Provision_cache_witness :
  exists c,
    cache (fst (fst (Provision Ex.two_servers))) = Some c /\
    defaultExpiration c = Ex.one_minute /\ items c = ∅ /\
    forall now key, lookup_cache (fst (fst (Provision Ex.two_servers))) now key = None.
Proof.
  apply (Provision_cache Ex.two_servers _ (snd (Provision Ex.two_servers))).
  - vm_compute. reflexivity.
  - vm_compute. reflexivity.
  - vm_compute. reflexivity.
Defined.

Lemma provisioned_contacts_only_valid_witness :
  isValidServerAddr "10.0.0.1:1812" = true.
Proof.
  apply (provisioned_contacts_only_valid Ex.mixed (fst (fst (Provision Ex.mixed)))
           (snd (Provision Ex.mixed)) Ex.all_down Ex.fifo Ex.in_order
           "alice" "wonderland" (3000000000, "10.0.0.1:1812")).
  - vm_compute. reflexivity.
  - vm_compute. left.
Defined.

Lemma parseCaddyfile_result_checked_witness :
  Servers Ex.parsed_good <> [] /\ Secret Ex.parsed_good <> EmptyString /\
  (Timeout Ex.parsed_good = EmptyString
   \/ snd (ParseDuration (Timeout Ex.parsed_good)) = None) /\
  (CacheTTL Ex.parsed_good = EmptyString
   \/ snd (ParseDuration (CacheTTL Ex.parsed_good)) = None) /\
  cache Ex.parsed_good = None.
Proof.
  apply (parseCaddyfile_result_checked (NewDispenser Ex.caddyfile_good)).
  vm_compute. reflexivity.
Defined.

Lemma parsed_then_provisioned_witness :
  exists c,
    Provision Ex.parsed_good
    = (mkHTTPRadiusAuth ["10.0.0.1:1812"; "10.0.0.2:1812"] "sharedsecret"
         EmptyString "5s" "1m" c, None, []) /\
    (c = None <-> fst (ParseDuration (effective_CacheTTL Ex.parsed_good)) <= 0).
Proof.
  apply (parsed_then_provisioned (NewDispenser Ex.caddyfile_good)).
  - vm_compute. reflexivity.
  - vm_compute. reflexivity.
  - intros s Hin. vm_compute in Hin.
    repeat (apply elem_of_cons in Hin as [->|Hin]); [reflexivity..|].
    inversion Hin.
Defined.

Lemma caddyfile_timeout_parses_witness :
  Timeout (fst (fst (Provision Ex.parsed_good))) = "5s" /\
  snd (ParseDuration (Timeout (fst (fst (Provision Ex.parsed_good))))) = None.
Proof.
  apply (caddyfile_timeout_parses (NewDispenser Ex.caddyfile_good)).
  - vm_compute. reflexivity.
  - vm_compute. reflexivity.
Defined.

(** A second [servers] line: its addresses go behind the one already
    there. *)
Lemma servers_directive_appends_witness :
  Servers (mkHTTPRadiusAuth ["192.0.2.10:1812"; "10.0.0.1:1812"; "10.0.0.2:1812"]
             EmptyString EmptyString EmptyString EmptyString None)
  = (["192.0.2.10:1812"]
     ++ fst (RemainingArgs (mkDispenser Ex.caddyfile_good 2 1)))%list.
Proof.
  apply (servers_directive_appends (mkDispenser Ex.caddyfile_good 2 1)
           (set_Servers zero_HTTPRadiusAuth ["192.0.2.10:1812"])
           (mkDispenser Ex.caddyfile_good 4 1)).
  - reflexivity.
  - vm_compute. reflexivity.
Defined.

Lemma no_block_no_servers_witness :
  parseCaddyfile (NewDispenser [mkToken "radius_auth" 1 0; mkToken "respond" 2 0])
  = Some (inl (fmt_Errorf "at least one RADIUS server must be defined" [])).
Proof.
  apply no_block_no_servers. left. reflexivity.
Defined.

Lemma CacheKey_splits_back_witness :
  Cut_colon (CacheKey "alice" "won:derland") = Some ("alice", "won:derland").
Proof.
  apply CacheKey_splits_back. reflexivity.
Defined.
